(** * The backtracking dependency solver of [solver.go]

    A shallow embedding of the solver driver: the selection, the unselected
    frontier, the stack of version queues and the functions of [solver.go]
    that tie them together, followed by the properties the specification
    states about them.

    Conventions.
    - A Go map is a [gmap], a Go set ([map[ProjectName]struct{}]) a [gset],
      a slice a [list] whose last element is the top of a stack.
    - A Go function returning [(value, error)] returns a pair whose second
      component is [None] for the [nil] error: the source sometimes reads
      the value and ignores the error.
    - A run-time panic is the outcome [Panic]; loops whose number of rounds
      the source does not bound take fuel and give [Timeout] without it.
    - [*versionQueue] pointers are addresses into the store [queues] of the
      solver: a queue is reached both through the stack [versions] and
      through local variables of the driver.
    - Logging reads the state and changes nothing; it is left out. *)

From stdpp Require Import gmap strings list fin_maps.
From Stdlib Require Import ZArith Lia FunctionalExtensionality.

Abbreviation ProjectName := string (only parsing).

(** ** Outcomes of a call *)

Inductive outcome (A : Type) : Type :=
| Done (a : A)
| Panic (msg : string)
| Timeout.
Arguments Done {A} a.
Arguments Panic {A} msg.
Arguments Timeout {A}.

#[global] Instance outcome_ret : MRet outcome := fun A a => Done a.
#[global] Instance outcome_bind : MBind outcome := fun A B f m =>
  match m with
  | Done a => f a
  | Panic msg => Panic msg
  | Timeout => Timeout
  end.

(** [for _, x := range l { ... }] with a body that may panic. *)
Fixpoint foldM {A S : Type} (body : S → A → outcome S) (l : list A) (s : S)
  : outcome S :=
  match l with
  | [] => Done s
  | x :: l' => s' ← body s x; foldM body l' s'
  end.

(** ** Versions and constraints

    The version and constraint types are opaque to the driver, which reaches
    them through [Matches], [MatchesAny] and equality only.  [Version] is a Go
    interface type: [nilVersion] is its [nil]. *)

Class Primitives := {
  Version : Type;
  Version_eq_dec :: EqDecision Version;
  nilVersion : Version;
  Constraint : Type;
  Matches : Constraint → Version → bool;
  MatchesAny : Constraint → Constraint → bool;
  Intersect : Constraint → Constraint → Constraint;
  anyConstraint : Constraint
}.

Section Solver.
Context `{Primitives}.

(** The revision drawn at random, once per process, for the placeholder
    atom [nilpa]: [Revision(strconv.FormatInt(rand.Int63(), 36))]. *)
Variable nilpaRevision : Version.

(** ** Data model *)

Record ProjectAtom := mkAtom { paName : ProjectName; paVersion : Version }.

Record ProjectDep := mkDep { pdName : ProjectName; pdConstraint : Constraint }.

Record Dependency := mkDependency { Depender : ProjectAtom; Dep : ProjectDep }.

Record LockedProject := mkLocked { lpName : ProjectName; lpVersion : Version }.

(** [Name] is the method [ProjectInfo.Name()], [pa] the field the source
    reads beside it; [Lock] is [None] for a [nil] lock and otherwise holds
    [Lock.Projects()]. *)
Record ProjectInfo := mkInfo {
  pa : ProjectAtom;
  Name : ProjectName;
  GetDependencies : list ProjectDep;
  GetDevDependencies : list ProjectDep;
  Lock : option (list LockedProject)
}.

#[global] Instance ProjectAtom_eq_dec : EqDecision ProjectAtom.
Proof. solve_decision. Defined.

Definition emptyProjectAtom : ProjectAtom := mkAtom "" nilVersion.

Definition nilpa : ProjectAtom := mkAtom "" nilpaRevision.

Inductive errorLevel := cannotResolve.

(** The [error] values the driver builds or passes on. [sourceError] stands
    for an error made by the source manager. *)
#[local] Unset Elimination Schemes.
Inductive error :=
| sourceError (msg : string)
| solveError (msg : string) (lvl : errorLevel)
| versionNotAllowedFailure (goal : ProjectAtom) (failparent : list Dependency)
    (c : Constraint)
| disjointConstraintFailure (goal : Dependency) (failsib nofailsib : list Dependency)
    (c : Constraint)
| constraintNotAllowedFailure (goal : Dependency) (v : Version)
| noVersionError (pn : ProjectName) (fails : list error).
#[local] Set Elimination Schemes.

Definition newSolveError (msg : string) (lvl : errorLevel) : error :=
  solveError msg lvl.

Record SourceManager := mkSM {
  RepoExists : ProjectName → bool * option error;
  VendorCodeExists : ProjectName → bool * option error;
  ListVersions : ProjectName → list Version * option error;
  GetProjectInfo : ProjectAtom → ProjectInfo * option error
}.

(** Modelled from the spec: the type [versionQueue] and its methods are not
    in [solver.go].  Section 4.3 of the specification gives the record: the
    remaining candidates [pi] (lock head first, then the upstream tail), the
    failure log [fails], the [failed] flag and the bookkeeping [hasLock] and
    [allLoaded]. *)
Record versionQueue := mkQueue {
  ref : ProjectName;
  pi : list Version;
  fails : list error;
  failed : bool;
  hasLock : bool;
  allLoaded : bool
}.

Definition vq_set_failed (b : bool) (q : versionQueue) : versionQueue :=
  mkQueue (ref q) (pi q) (fails q) b (hasLock q) (allLoaded q).

(** Modelled from the spec: [selection] is declared outside [solver.go];
    section 3 gives its two fields. *)
Record selection := mkSelection {
  projects : list ProjectAtom;
  deps : gmap ProjectName (list Dependency)
}.

(** The solver.  [unsel] is the slice [unsel.sl] (the comparator field of
    [unselected] is the solver's own [unselectedComparator]); [versions]
    holds addresses into [queues]; [attempts] is a Go [int]. *)
Record solver := mkSolver {
  sm : SourceManager;
  latest : gset ProjectName;
  sel : selection;
  unsel : list ProjectName;
  versions : list nat;
  rp : ProjectInfo;
  rlm : gmap ProjectName LockedProject;
  attempts : Z;
  queues : list versionQueue
}.

Definition set_latest (x : gset ProjectName) (s : solver) : solver :=
  mkSolver (sm s) x (sel s) (unsel s) (versions s) (rp s) (rlm s) (attempts s) (queues s).
Definition set_sel (x : selection) (s : solver) : solver :=
  mkSolver (sm s) (latest s) x (unsel s) (versions s) (rp s) (rlm s) (attempts s) (queues s).
Definition set_unsel (x : list ProjectName) (s : solver) : solver :=
  mkSolver (sm s) (latest s) (sel s) x (versions s) (rp s) (rlm s) (attempts s) (queues s).
Definition set_versions (x : list nat) (s : solver) : solver :=
  mkSolver (sm s) (latest s) (sel s) (unsel s) x (rp s) (rlm s) (attempts s) (queues s).
Definition set_rp (x : ProjectInfo) (s : solver) : solver :=
  mkSolver (sm s) (latest s) (sel s) (unsel s) (versions s) x (rlm s) (attempts s) (queues s).
Definition set_rlm (x : gmap ProjectName LockedProject) (s : solver) : solver :=
  mkSolver (sm s) (latest s) (sel s) (unsel s) (versions s) (rp s) x (attempts s) (queues s).
Definition set_attempts (x : Z) (s : solver) : solver :=
  mkSolver (sm s) (latest s) (sel s) (unsel s) (versions s) (rp s) (rlm s) x (queues s).
Definition set_queues (x : list versionQueue) (s : solver) : solver :=
  mkSolver (sm s) (latest s) (sel s) (unsel s) (versions s) (rp s) (rlm s) (attempts s) x.

Definition set_projects (x : list ProjectAtom) (s : solver) : solver :=
  set_sel (mkSelection x (deps (sel s))) s.
Definition set_deps (x : gmap ProjectName (list Dependency)) (s : solver) : solver :=
  set_sel (mkSelection (projects (sel s)) x) s.

(** ** Selection *)

(** Modelled from the spec: [getDependenciesOn] is a method of [selection]
    (section 4.1): the inbound edges on [name] in creation order, none when
    the map has no entry. *)
Definition getDependenciesOn (name : ProjectName) (sl : selection) : list Dependency :=
  default [] (deps sl !! name).

(** Modelled from the spec: [getConstraint] (section 4.1) is the intersection
    of the constraints of the inbound edges on [name], the universal
    constraint when there are none. *)
Definition getConstraint (name : ProjectName) (sl : selection) : Constraint :=
  foldl (fun c d => Intersect c (pdConstraint (Dep d))) anyConstraint
        (getDependenciesOn name sl).

(** Modelled from the spec: [selected] (section 4.1) scans [projects] for a
    committed atom of that name; [None] is the result [found = false]. *)
Definition selected (name : ProjectName) (sl : selection) : option ProjectAtom :=
  snd <$> list_find (fun p => paName p = name) (projects sl).

(** ** Version queues *)

(** Modelled from the spec: [newVersionQueue] (section 4.3).  A lock-biased
    atom other than the placeholder becomes the lock head and the upstream
    tail is left for later; without one the tail is drawn at once, and a
    listing error is the error of the construction. *)
Definition newVersionQueue (name : ProjectName) (lockv : ProjectAtom)
    (m : SourceManager) : option versionQueue * option error :=
  if decide (lockv = nilpa) then
    let '(vl, err) := ListVersions m name in
    match err with
    | Some e => (None, Some e)
    | None => (Some (mkQueue name vl [] false false true), None)
    end
  else (Some (mkQueue name [paVersion lockv] [] false true false), None).

(** Modelled from the spec: [current] (section 4.3) is the head of the
    remaining candidates, [nil] when there is none. *)
Definition current (q : versionQueue) : Version :=
  match pi q with
  | v :: _ => v
  | [] => nilVersion
  end.

(** Modelled from the spec: [advance] (section 4.3) records the reason, if
    one is given, and drops the current head; when that uses up the lock head
    it draws the upstream tail, and only that can fail. *)
Definition advance (reason : option error) (m : SourceManager) (q : versionQueue)
  : versionQueue * option error :=
  let fl := match reason with Some r => fails q ++ [r] | None => fails q end in
  let rest := tail (pi q) in
  match rest, allLoaded q with
  | [], false =>
      let '(vl, err) := ListVersions m (ref q) in
      match err with
      | Some e => (mkQueue (ref q) rest fl (failed q) (hasLock q) false, Some e)
      | None => (mkQueue (ref q) vl fl (failed q) (hasLock q) true, None)
      end
  | _, _ => (mkQueue (ref q) rest fl (failed q) (hasLock q) (allLoaded q), None)
  end.

(** Modelled from the spec: [isExhausted] (section 4.3): no candidate
    remains, in the queue or upstream. *)
Definition isExhausted (q : versionQueue) : bool :=
  bool_decide (pi q = []) && allLoaded q.

(** Reading and writing a queue through its pointer. *)
Definition deref (a : nat) (s : solver) : outcome versionQueue :=
  match queues s !! a with
  | Some q => Done q
  | None => Panic "invalid memory address or nil pointer dereference"
  end.

Definition store (a : nat) (q : versionQueue) (s : solver) : solver :=
  set_queues (<[a := q]> (queues s)) s.

Definition alloc (q : versionQueue) (s : solver) : nat * solver :=
  (length (queues s), set_queues (queues s ++ [q]) s).

(** ** The unselected frontier *)

Definition nextUnselected (s : solver) : ProjectName * bool :=
  match unsel s with
  | x :: _ => (x, true)
  | [] => ("", false)
  end.

(** The comparator on two names: the body of [unselectedComparator] after its
    first line. *)
Definition unselectedLess (s : solver) (iname jname : ProjectName) : bool :=
  if decide (iname = jname) then false else
  let rname := Name (rp s) in
  if decide (iname = rname) then true else
  if decide (jname = rname) then false else
  let ilock := bool_decide (is_Some (rlm s !! iname)) in
  let jlock := bool_decide (is_Some (rlm s !! jname)) in
  if ilock && negb jlock then true else
  if negb ilock && jlock then false else
  if ilock && jlock then String.ltb iname jname else
  let iv := length (ListVersions (sm s) iname).1 in
  let jv := length (ListVersions (sm s) jname).1 in
  if (iv =? 0) && negb (jv =? 0) then true else
  if negb (iv =? 0) && (jv =? 0) then false else
  if negb (iv =? jv) then iv <? jv else
  String.ltb iname jname.

Definition unselectedComparator (s : solver) (i j : nat) : outcome bool :=
  match unsel s !! i, unsel s !! j with
  | Some iname, Some jname => Done (unselectedLess s iname jname)
  | _, _ => Panic "index out of range"
  end.

(** Modelled from the spec: the frontier is a heap over the slice (section
    4.2), so [Swap] exchanges two slots and [remove] takes the name out of the
    slice (its first occurrence), keeping the order of the rest. *)
Definition Swap (i j : nat) (s : solver) : outcome solver :=
  match unsel s !! i, unsel s !! j with
  | Some a, Some b => Done (set_unsel (<[j := a]> (<[i := b]> (unsel s))) s)
  | _, _ => Panic "index out of range"
  end.

Fixpoint remove (id : ProjectName) (l : list ProjectName) : list ProjectName :=
  match l with
  | [] => []
  | x :: l' => if decide (x = id) then l' else x :: remove id l'
  end.

(** [up] of Go's [container/heap]: the loop ends at the root at the latest,
    after at most [j + 1] rounds. *)
Fixpoint up (n : nat) (j : nat) (s : solver) : outcome solver :=
  match n with
  | 0 => Timeout
  | S n' =>
      let i := (j - 1) / 2 in
      if decide (i = j) then Done s else
      lt ← unselectedComparator s j i;
      if negb lt then Done s else
      s' ← Swap i j s;
      up n' i s'
  end.

(** [heap.Push(s.unsel, x)]: append, then sift the new last slot up. *)
Definition heap_Push (x : ProjectName) (s : solver) : outcome solver :=
  let s' := set_unsel (unsel s ++ [x]) s in
  up (length (unsel s')) (length (unsel s') - 1) s'.

(** ** The driver *)

(** The wrap-around of [attempts++] on a 64-bit [int]. *)
Definition int_succ (z : Z) : Z :=
  if (z =? 2 ^ 63 - 1)%Z then (- 2 ^ 63)%Z else (z + 1)%Z.

Definition NewSolver (m : SourceManager) : solver :=
  mkSolver m ∅ (mkSelection [] ∅) [] []
           (mkInfo emptyProjectAtom "" [] [] None) ∅ 0 [].

Definition getDependenciesOf (s : solver) (atom : ProjectAtom)
  : list ProjectDep * option error :=
  let '(info, err) := GetProjectInfo (sm s) atom in
  match err with
  | Some e => ([], Some e)
  | None =>
      let ds := GetDependencies info in
      let ds := if decide (Name (rp s) = paName atom)
                then ds ++ GetDevDependencies info else ds in
      (ds, None)
  end.

(** The loop of [fail] over [s.versions], oldest queue first. *)
Fixpoint fail_loop (name : ProjectName) (vs : list nat) (s : solver) : outcome solver :=
  match vs with
  | [] => Done s
  | a :: vs' =>
      vq ← deref a s;
      if decide (ref vq = name) then Done (store a (vq_set_failed true vq) s)
      else fail_loop name vs' s
  end.

Definition fail (name : ProjectName) (s : solver) : outcome solver :=
  if decide (Name (rp s) = name) then Done s
  else fail_loop name (versions s) s.

(** The body of the loop of [selectVersion] over the declared
    dependencies. *)
Definition selectVersion_dep (atom : ProjectAtom) (s : solver) (dep : ProjectDep)
  : outcome solver :=
  let siblingsAndSelf :=
    getDependenciesOn (pdName dep) (sel s) ++ [mkDependency atom dep] in
  let s := set_deps (<[pdName dep := siblingsAndSelf]> (deps (sel s))) s in
  if decide (length siblingsAndSelf = 1) then heap_Push (pdName dep) s
  else Done s.

Definition selectVersion (atom : ProjectAtom) (s : solver) : outcome solver :=
  let s := set_unsel (remove (paName atom) (unsel s)) s in
  let s := set_projects (projects (sel s) ++ [atom]) s in
  match getDependenciesOf s atom with
  | (_, Some _) => Panic "shouldn't be possible"
  | (ds, None) => foldM (selectVersion_dep atom) ds s
  end.

(** The body of the loop of [unselectLast]; slicing an empty [siblings]
    panics. *)
Definition unselectLast_dep (s : solver) (dep : ProjectDep) : outcome solver :=
  let siblings := getDependenciesOn (pdName dep) (sel s) in
  if decide (length siblings = 0) then Panic "slice bounds out of range"
  else
    let siblings := removelast siblings in
    let s := set_deps (<[pdName dep := siblings]> (deps (sel s))) s in
    if decide (length siblings = 0)
    then Done (set_unsel (remove (pdName dep) (unsel s)) s)
    else Done s.

Definition unselectLast (s : solver) : outcome solver :=
  match last (projects (sel s)) with
  | None => Panic "index out of range"
  | Some atom =>
      let s := set_projects (removelast (projects (sel s))) s in
      s ← heap_Push (paName atom) s;
      match getDependenciesOf s atom with
      | (_, Some _) => Panic "shouldn't be possible"
      | (ds, None) => foldM unselectLast_dep ds s
      end
  end.

(** The part of [getLockVersionIfValid] below its first [if]. *)
Definition lockVersionFromLock (name : ProjectName) (s : solver) : ProjectAtom :=
  match rlm s !! name with
  | None => nilpa
  | Some lp =>
      let constraint := getConstraint name (sel s) in
      if negb (Matches constraint (lpVersion lp)) then nilpa
      else mkAtom (lpName lp) (lpVersion lp)
  end.

Definition getLockVersionIfValid (name : ProjectName) (s : solver) : ProjectAtom :=
  if bool_decide (name ∈ latest s) then
    let '(exist_, _) := RepoExists (sm s) name in
    if negb exist_ then nilpa else lockVersionFromLock name s
  else lockVersionFromLock name s.

(** Phase 1 of [satisfiable]: the loop that fails the dependers whose own
    constraint rejects the version, and its body. *)
Definition failparents_body (v : Version) (acc : list Dependency * solver)
    (dep : Dependency) : outcome (list Dependency * solver) :=
  let '(failparent, s) := acc in
  if negb (Matches (pdConstraint (Dep dep)) v) then
    s' ← fail (paName (Depender dep)) s;
    Done (failparent ++ [dep], s')
  else Done (failparent, s).

Definition failparents (v : Version) (ds : list Dependency) (s : solver)
  : outcome (list Dependency * solver) :=
  foldM (failparents_body v) ds ([], s).

(** The loop of phase 2 over the siblings of a disjoint dependency, and its
    body. *)
Definition failsiblings_body (c : Constraint)
    (acc : list Dependency * list Dependency * solver) (sibling : Dependency)
  : outcome (list Dependency * list Dependency * solver) :=
  let '(failsib, nofailsib, s) := acc in
  if negb (MatchesAny (pdConstraint (Dep sibling)) c) then
    s' ← fail (paName (Depender sibling)) s;
    Done (failsib ++ [sibling], nofailsib, s')
  else Done (failsib, nofailsib ++ [sibling], s).

Definition failsiblings (c : Constraint) (siblings : list Dependency) (s : solver)
  : outcome (list Dependency * list Dependency * solver) :=
  foldM (failsiblings_body c) siblings ([], [], s).

(** Phase 2 of [satisfiable]: the loop over the declared dependencies. *)
Fixpoint satisfiable_deps (atom : ProjectAtom) (ds : list ProjectDep) (s : solver)
  : outcome (option error * solver) :=
  match ds with
  | [] => Done (None, s)
  | dep :: ds' =>
      let siblings := getDependenciesOn (pdName dep) (sel s) in
      let constraint := getConstraint (pdName dep) (sel s) in
      if negb (MatchesAny constraint (pdConstraint dep)) then
        '(failsib, nofailsib, s') ← failsiblings (pdConstraint dep) siblings s;
        Done (Some (disjointConstraintFailure (mkDependency atom dep)
                      failsib nofailsib constraint), s')
      else
        match selected (pdName dep) (sel s) with
        | Some chosen =>
            if negb (Matches (pdConstraint dep) (paVersion chosen)) then
              s' ← fail (pdName dep) s;
              Done (Some (constraintNotAllowedFailure (mkDependency atom dep)
                            (paVersion chosen)), s')
            else satisfiable_deps atom ds' s
        | None => satisfiable_deps atom ds' s
        end
  end.

Definition satisfiable (atom : ProjectAtom) (s : solver)
  : outcome (option error * solver) :=
  if decide (emptyProjectAtom = atom)
  then Panic "canary - checking version of empty ProjectAtom"
  else
    let constraint := getConstraint (paName atom) (sel s) in
    if negb (Matches constraint (paVersion atom)) then
      let ds := getDependenciesOn (paName atom) (sel s) in
      '(failparent, s') ← failparents (paVersion atom) ds s;
      Done (Some (versionNotAllowedFailure atom failparent constraint), s')
    else
      match getDependenciesOf s atom with
      | (_, Some err) => Done (Some err, s)
      | (ds, None) => satisfiable_deps atom ds s
      end.

(** The [for] loop of [findValidVersion] on the queue at address [a]; the
    result is [true] when it returned out of the loop with a good version and
    [false] when it left the loop by [break]. *)
Fixpoint findValidVersion_loop (n : nat) (a : nat) (s : solver)
  : outcome (bool * solver) :=
  match n with
  | 0 => Timeout
  | S n' =>
      q ← deref a s;
      let cur := current q in
      '(err, s1) ← satisfiable (mkAtom (ref q) cur) s;
      match err with
      | None => Done (true, s1)
      | Some e =>
          q1 ← deref a s1;
          let '(q2, aerr) := advance (Some e) (sm s1) q1 in
          let s2 := store a q2 s1 in
          match aerr with
          | Some _ => Done (false, s2)
          | None =>
              if isExhausted q2 then Done (false, s2)
              else findValidVersion_loop n' a s2
          end
      end
  end.

(** A bound on the rounds of the loop: every round that goes on has dropped
    a candidate, or replaced the lock head by the upstream list. *)
Definition walk_bound (m : SourceManager) (q : versionQueue) : nat :=
  S (length (pi q) + if allLoaded q then 0 else S (length (ListVersions m (ref q)).1)).

Definition findValidVersion (a : nat) (s : solver) : outcome (option error * solver) :=
  q ← deref a s;
  if decide (nilVersion = current q)
  then Panic "version queue is empty, should not happen"
  else
    let faillen := length (fails q) in
    '(found, s1) ← findValidVersion_loop (walk_bound (sm s) q) a s;
    if found : bool then Done (None, s1)
    else
      match getDependenciesOn (ref q) (sel s1) with
      | [] => Panic "index out of range"
      | d :: _ =>
          s2 ← fail (paName (Depender d)) s1;
          q2 ← deref a s2;
          Done (Some (noVersionError (ref q2) (drop faillen (fails q2))), s2)
      end.

(** [newVersionQueue] with the queue it returns put in the store: the
    pointer (if any) and the error (if any). *)
Definition newVersionQueue_at (name : ProjectName) (lockv : ProjectAtom) (s : solver)
  : option nat * option error * solver :=
  match newVersionQueue name lockv (sm s) with
  | (Some q, err) => let '(a, s') := alloc q s in (Some a, err, s')
  | (None, err) => (None, err, s)
  end.

(** [createVersionQueue] returns the pointer (if any) and the error (if
    any), as the source does. *)
Definition createVersionQueue (name : ProjectName) (s : solver)
  : outcome (option nat * option error * solver) :=
  if decide (name = Name (rp s)) then Done (newVersionQueue_at name nilpa s)
  else
    let '(exists_, err) := RepoExists (sm s) name in
    match err with
    | Some e => Done (None, Some e, s)
    | None =>
        let located :=
          if exists_ then (true, None)
          else VendorCodeExists (sm s) name in
        match located with
        | (_, Some e) => Done (None, Some e, s)
        | (false, None) =>
            Done (None,
                  Some (newSolveError
                          (String.append "Project '"
                             (String.append name "' could not be located."))
                          cannotResolve), s)
        | (true, None) =>
            let lockv := getLockVersionIfValid name s in
            match newVersionQueue_at name lockv s with
            | (_, Some e, s') => Done (None, Some e, s')
            | (None, None, _) =>
                Panic "invalid memory address or nil pointer dereference"
            | (Some a, None, s') =>
                '(err, s'') ← findValidVersion a s';
                Done (Some a, err, s'')
            end
        end
    end.

(** The inner loop of [backtrack]: pop the frames that are not marked
    failed.  [true] stands for [break] (the top frame is marked), [false] for
    the [return false] on an empty stack.  Every round pops a frame. *)
Fixpoint backtrack_search (n : nat) (s : solver) : outcome (bool * solver) :=
  match n with
  | 0 => Timeout
  | S n' =>
      match last (versions s) with
      | None => Done (false, s)
      | Some a =>
          q ← deref a s;
          if failed q then Done (true, s)
          else
            s1 ← unselectLast (set_versions (removelast (versions s)) s);
            backtrack_search n' s1
      end
  end.

(** The outer loop of [backtrack]: [true] stands for its [break] after a
    re-commit, [false] for the [return false] of the inner loop.  Every round
    that goes on has popped a frame. *)
Fixpoint backtrack_loop (n : nat) (s : solver) : outcome (bool * solver) :=
  match n with
  | 0 => Timeout
  | S n' =>
      '(marked, s1) ← backtrack_search (S (length (versions s))) s;
      if negb marked then Done (false, s1)
      else
        match last (versions s1) with
        | None => Panic "index out of range"
        | Some a =>
            s2 ← unselectLast s1;
            q ← deref a s2;
            let '(q', aerr) := advance None (sm s2) q in
            let s3 := store a q' s2 in
            if bool_decide (aerr = None) && negb (isExhausted q') then
              '(err, s4) ← findValidVersion a s3;
              match err with
              | None =>
                  q4 ← deref a s4;
                  s5 ← selectVersion (mkAtom (ref q4) (current q4)) s4;
                  Done (true, s5)
              | Some _ =>
                  backtrack_loop n' (set_versions (removelast (versions s4)) s4)
              end
            else backtrack_loop n' (set_versions (removelast (versions s3)) s3)
        end
  end.

Definition backtrack (s : solver) : outcome (bool * solver) :=
  if decide (length (versions s) = 0) then Done (false, s)
  else
    '(recommitted, s1) ← backtrack_loop (S (length (versions s))) s;
    if negb recommitted then Done (false, s1)
    else if decide (length (versions s1) = 0) then Done (false, s1)
    else Done (true, set_attempts (int_succ (attempts s1)) s1).

(** One round of the loop of [solve]: [Some r] when the round returns [r]
    from [solve], [None] when the loop goes on. *)
Definition solve_step (s : solver)
  : outcome (option (list ProjectAtom * option error) * solver) :=
  let '(name, has) := nextUnselected s in
  if negb has then Done (Some (projects (sel s), None), s)
  else
    '(queue, err, s1) ← createVersionQueue name s;
    match err with
    | Some e =>
        '(ok, s2) ← backtrack s1;
        if ok : bool then Done (None, s2) else Done (Some ([], Some e), s2)
    | None =>
        match queue with
        | None => Panic "invalid memory address or nil pointer dereference"
        | Some a =>
            q ← deref a s1;
            if decide (current q = nilVersion)
            then Panic "canary - queue is empty, but flow indicates success"
            else
              s2 ← selectVersion (mkAtom (ref q) (current q)) s1;
              Done (None, set_versions (versions s2 ++ [a]) s2)
        end
    end.

Fixpoint solve (fuel : nat) (s : solver)
  : outcome (list ProjectAtom * option error * solver) :=
  match fuel with
  | 0 => Timeout
  | S fuel' =>
      '(r, s') ← solve_step s;
      match r with
      | Some (projs, err) => Done (projs, err, s')
      | None => solve fuel' s'
      end
  end.

(** The loop of [solve] run for [n] rounds, none of which returns. *)
Fixpoint rounds (n : nat) (s : solver) : option solver :=
  match n with
  | 0 => Some s
  | S n' =>
      match solve_step s with
      | Done (None, s') => rounds n' s'
      | _ => None
      end
  end.

Record Result := mkResult {
  Projects : list ProjectAtom;
  SolveFailure : option error
}.

(** [Solve] up to the call of [s.solve()]: the state in which the loop
    starts. *)
Definition Solve_prepare (root : ProjectInfo) (toUpgrade : list ProjectName)
    (s : solver) : outcome solver :=
  let s := set_rp root s in
  let s := match Lock root with
           | Some lps => set_rlm (foldl (fun m lp => <[lpName lp := lp]> m) (rlm s) lps) s
           | None => s
           end in
  let s := set_latest (foldl (fun l v => {[v]} ∪ l) (latest s) toUpgrade) s in
  let s := set_sel (mkSelection [] ∅) s in
  let s := set_unsel [] s in
  selectVersion (pa (rp s)) s.

Definition Solve (fuel : nat) (root : ProjectInfo) (toUpgrade : list ProjectName)
    (s : solver) : outcome (Result * solver) :=
  s0 ← Solve_prepare root toUpgrade s;
  '(projs, err, s') ← solve fuel s0;
  Done (mkResult projs err, s').

End Solver.

(** ** The specification's reading of the comparator

    Section 4.2 in its own words: the discriminators in order, over the root
    name, the membership of a name in the prior lock and the number of
    versions the source manager lists for it. *)
Definition frontier_before (root : ProjectName) (locked : ProjectName → bool)
    (nversions : ProjectName → nat) (i j : ProjectName) : bool :=
  if decide (i = j) then false
  else if decide (i = root) then true
  else if decide (j = root) then false
  else
    match locked i, locked j with
    | true, false => true
    | false, true => false
    | true, true => String.ltb i j
    | false, false =>
        match nversions i, nversions j with
        | 0, S _ => true
        | S _, 0 => false
        | ni, nj =>
            match Nat.compare ni nj with
            | Lt => true
            | Gt => false
            | Eq => String.ltb i j
            end
        end
    end.

(** ** A concrete instance

    Versions are numbers (0 is [nil]), constraints are ranges and their
    intersections, and a source manager is given by a table of the projects
    it knows, each with its versions in preferred order and, per version, the
    declared dependencies. *)

Inductive rangeConstraint :=
| anyRange
| atLeast (n : nat)
| below (n : nat)
| both (a b : rangeConstraint).

Fixpoint rangeMatches (c : rangeConstraint) (v : nat) : bool :=
  match c with
  | anyRange => true
  | atLeast n => n <=? v
  | below n => v <? n
  | both a b => rangeMatches a v && rangeMatches b v
  end.

(** Two ranges meet when a version up to 32 lies in both. *)
Definition rangeMatchesAny (a b : rangeConstraint) : bool :=
  existsb (fun v => rangeMatches a v && rangeMatches b v) (seq 1 32).

Definition demoPrimitives : Primitives := {|
  Version := nat;
  nilVersion := 0;
  Constraint := rangeConstraint;
  Matches := rangeMatches;
  MatchesAny := rangeMatchesAny;
  Intersect := both;
  anyConstraint := anyRange
|}.

Module Demo.
#[local] Existing Instance demoPrimitives.

Definition table := list (string * list (nat * list ProjectDep)).

Definition lookupProject (t : table) (name : string)
  : option (list (nat * list ProjectDep)) :=
  snd <$> List.find (fun e => bool_decide (e.1 = name)) t.

Definition declaredIn (t : table) (atom : ProjectAtom) : option (list ProjectDep) :=
  vs ← lookupProject t (paName atom);
  snd <$> List.find (fun e => bool_decide (e.1 = paVersion atom)) vs.

(** The manager of a table: a project exists upstream when the table has it,
    nothing is vendored, and asking for an atom the table does not have is an
    error. *)
Definition manager (t : table) : SourceManager :=
  mkSM (fun name => (bool_decide (is_Some (lookupProject t name)), None))
       (fun _ => (false, None))
       (fun name => (default [] (map fst <$> lookupProject t name), None))
       (fun atom =>
          match declaredIn t atom with
          | Some ds => (mkInfo atom (paName atom) ds [] None, None)
          | None => (mkInfo atom (paName atom) [] [] None,
                     Some (sourceError "no such project atom"))
          end).

Definition dep (name : string) (c : rangeConstraint) : ProjectDep := mkDep name c.

Definition rootInfo (ds : list ProjectDep) (lock : option (list LockedProject))
  : ProjectInfo :=
  mkInfo (mkAtom "R" 1) "R" ds [] lock.

(** The revision drawn for the placeholder atom. *)
Definition draw : Version := 99.

(** Whether an outcome is [Done], and its value (or else a default). *)
Definition done {A : Type} (o : outcome A) : bool :=
  match o with
  | Done _ => true
  | _ => false
  end.

Definition value {A : Type} (d : A) (o : outcome A) : A :=
  match o with
  | Done a => a
  | _ => d
  end.

(** The state of an outcome that is known to be [Done]. *)
Definition get (o : outcome solver) : solver :=
  match o with
  | Done s => s
  | _ => NewSolver (manager [])
  end.

Definition after (n : nat) (s : solver) : solver := default s (rounds draw n s).

(** Whether the loop of [solve] goes through [n] rounds from [s]. *)
Definition runs (n : nat) (s : solver) : bool :=
  match rounds draw n s with
  | Some _ => true
  | None => false
  end.

(** Scenario 7: the root depends on A, the lock holds A at 1, upstream lists
    3, 2, 1, and A is marked for upgrade. *)
Definition upgrade_table : table :=
  [("R", [(1, [dep "A" anyRange])]); ("A", [(3, []); (2, []); (1, [])])].

Definition upgrade_root : ProjectInfo :=
  rootInfo [dep "A" anyRange] (Some [mkLocked "A" 1]).

Definition upgrade_start : solver :=
  get (Solve_prepare upgrade_root ["A"] (NewSolver (manager upgrade_table))).

(** The same projects, known from vendored code only. *)
Definition vendor_manager : SourceManager :=
  mkSM (fun _ => (false, None)) (fun _ => (true, None))
       (ListVersions (manager upgrade_table))
       (GetProjectInfo (manager upgrade_table)).

Definition vendor_start : solver :=
  get (Solve_prepare upgrade_root ["A"] (NewSolver vendor_manager)).

(** A solve that backtracks: A at 2 needs B from 9 on, which upstream does
    not have; A at 1 needs nothing. *)
Definition retry_table : table :=
  [("R", [(1, [dep "A" anyRange])]);
   ("A", [(2, [dep "B" (atLeast 9)]); (1, [])]);
   ("B", [(1, [])])].

Definition retry_root : ProjectInfo := rootInfo [dep "A" anyRange] None.

Definition retry_start : solver :=
  get (Solve_prepare retry_root [] (NewSolver (manager retry_table))).

(** The queue that [createVersionQueue] makes for B once A at 2 is
    committed, in the store of that state. *)
Definition retry_queue : versionQueue := mkQueue "B" [1] [] false false true.

Definition retry_walk : solver := (alloc retry_queue (after 1 retry_start)).2.

(** The state in which the walk of [findValidVersion] over that queue
    ends. *)
Definition retry_walked : solver :=
  match findValidVersion_loop (walk_bound (sm retry_walk) retry_queue) 1 retry_walk with
  | Done (_, s) => s
  | _ => retry_walk
  end.

(** A root that depends on itself. *)
Definition loop_table : table := [("R", [(1, [dep "R" anyRange])])].

Definition loop_start : solver :=
  get (Solve_prepare (rootInfo [dep "R" anyRange] None) []
         (NewSolver (manager loop_table))).

(** A root with four dependencies, of which A depends on Z; Q is a project
    nothing depends on. *)
Definition wide_table : table :=
  [("R", [(1, [dep "C" anyRange; dep "B" anyRange; dep "A" anyRange;
               dep "E" anyRange])]);
   ("A", [(1, [dep "Z" anyRange])]); ("B", [(1, [])]); ("C", [(1, [])]);
   ("E", [(1, [])]); ("Z", [(1, [])]); ("Q", [(1, [])])].

Definition wide_start : solver :=
  get (Solve_prepare (rootInfo [] None) [] (NewSolver (manager wide_table))).

(** A stack of three queues, the two younger ones on the same project. *)
Definition marked_stack : solver :=
  set_versions [0; 1; 2]
    (set_queues [mkQueue "A" [1] [] false false true;
                 mkQueue "B" [2; 1] [] false false true;
                 mkQueue "B" [1] [] false false true]
       (set_rp (rootInfo [] None) (NewSolver (manager retry_table)))).

(** A manager that answers as [manager upgrade_table] does. *)
Definition upgrade_mirror : SourceManager :=
  mkSM (fun n => RepoExists (manager upgrade_table) n)
       (fun n => (false, None))
       (fun n => ListVersions (manager upgrade_table) n)
       (fun a => GetProjectInfo (manager upgrade_table) a).

(** Every dependency a table declares. *)
Definition table_deps (t : table) : list ProjectDep :=
  t ≫= (fun e => e.2 ≫= snd).


End Demo.


(** ** Vocabulary of the properties *)

Section Properties.
Context `{Primitives}.
Variable nilpaRevision : Version.

(** Every pointer on the stack points to a queue. *)
Definition stack_ok (s : solver) : Prop :=
  Forall (fun a => is_Some (queues s !! a)) (versions s).

(** [s'] is [s] up to the [failed] flags of its queues. *)
Definition flags_only (s s' : solver) : Prop :=
  s' = set_queues (queues s') s ∧
  Forall2 (fun q q' => ∃ b, q' = vq_set_failed b q) (queues s) (queues s').

(** The number of times a name is on the frontier. *)
Definition mult (l : list ProjectName) (n : ProjectName) : nat :=
  count_occ String.string_dec l n.

(** 1 when the proposition holds, 0 otherwise. *)
Definition ind (P : Prop) `{Decision P} : nat := if decide P then 1 else 0.

(** [s'] differs from [s] in the frontier only, which holds the same names. *)
Definition frontier_shuffled (s s' : solver) : Prop :=
  s' = set_unsel (unsel s') s ∧ unsel s' ≡ₚ unsel s.

(** The inbound edges on a name, and the declared dependencies on it. *)
Definition edges (s : solver) (n : ProjectName) : list Dependency :=
  getDependenciesOn n (sel s).

Definition onName (n : ProjectName) (ds : list ProjectDep) : list ProjectDep :=
  filter (fun d => pdName d = n) ds.

(** [s'] differs from [s] in the selection and the frontier only. *)
Definition core_only (s s' : solver) : Prop :=
  s' = set_sel (sel s') (set_unsel (unsel s') s).

(** A queue keeps its name and its failure log only grows at the end. *)
Definition queue_grows (q q' : versionQueue) : Prop :=
  ref q' = ref q ∧ fails q `prefix_of` fails q'.

(** [s'] differs from [s] in the store only: queues may have been added, and
    the old ones have grown. *)
Definition store_grows (s s' : solver) : Prop :=
  s' = set_queues (queues s') s ∧
  ∃ l1 l2, queues s' = l1 ++ l2 ∧ Forall2 queue_grows (queues s) l1.

(** The candidates left to try, counting the upstream list not drawn yet. *)
Definition candidates_left (m : SourceManager) (q : versionQueue) : nat :=
  length (pi q) + if allLoaded q then 0 else S (length (ListVersions m (ref q)).1).

(** [fail] on each name in turn. *)
Definition fail_all (names : list ProjectName) (s : solver) : outcome solver :=
  foldM (fun s n => fail n s) names s.

(** An edge whose own constraint rejects the version; an edge whose own
    constraint is disjoint with the constraint. *)
Definition rejects (v : Version) (e : Dependency) : bool :=
  negb (Matches (pdConstraint (Dep e)) v).

Definition disjoint_with (c : Constraint) (e : Dependency) : bool :=
  negb (MatchesAny (pdConstraint (Dep e)) c).

Definition dependers (es : list Dependency) : list ProjectName :=
  map (fun e => paName (Depender e)) es.

(** A declared dependency passes phase 2: the compound constraint on its
    target meets its constraint, and the selected version of the target, if
    there is one, matches it. *)
Definition dep_admitted (s : solver) (d : ProjectDep) : Prop :=
  MatchesAny (getConstraint (pdName d) (sel s)) (pdConstraint d) = true ∧
  ∀ chosen, selected (pdName d) (sel s) = Some chosen →
            Matches (pdConstraint d) (paVersion chosen) = true.

(** The three failures that section 4.5.5 lists for [satisfiable]. *)
Definition listed_failure (e : error) : Prop :=
  match e with
  | versionNotAllowedFailure _ _ _
  | disjointConstraintFailure _ _ _ _
  | constraintNotAllowedFailure _ _ => True
  | _ => False
  end.

(** Section 4.5.5 as it reads: success exactly when both phases pass, and
    every failure is one of the three listed. *)
Definition satisfiable_as_stated (atom : ProjectAtom) (s : solver) : Prop :=
  ((∃ s', satisfiable atom s = Done (None, s')) ↔
   Matches (getConstraint (paName atom) (sel s)) (paVersion atom) = true ∧
   Forall (dep_admitted s) (getDependenciesOf s atom).1) ∧
  (∀ e s', satisfiable atom s = Done (Some e, s') → listed_failure e).

(** The states at the head of the loop of [solve], when the loop starts in
    [s0]; and the states between driver steps, which are those and the state
    in which [solve] returns. *)
Inductive loop_head (s0 : solver) : solver → Prop :=
| loop_head_start : loop_head s0 s0
| loop_head_next (s s' : solver) :
    loop_head s0 s → solve_step nilpaRevision s = Done (None, s') → loop_head s0 s'.

Definition between_steps (s0 st : solver) : Prop :=
  loop_head s0 st ∨
  ∃ s r, loop_head s0 s ∧ solve_step nilpaRevision s = Done (Some r, st).

(** The dependencies the solver takes an atom to declare, and the edges that
    the atoms of a list put on a name, in order. *)
Definition declared (s : solver) (atom : ProjectAtom) : list ProjectDep :=
  (getDependenciesOf s atom).1.

Definition edges_of (s : solver) (ps : list ProjectAtom) (n : ProjectName)
  : list Dependency :=
  flat_map (fun p => map (mkDependency p) (onName n (declared s p))) ps.

Definition names (ps : list ProjectAtom) : list ProjectName := map paName ps.

(** No atom declares a dependency on the root. *)
Definition no_root_deps (s : solver) : Prop :=
  ∀ atom d, d ∈ declared s atom → pdName d ≠ paName (pa (rp s)).

(** What ties the selection and the frontier together: the frontier holds,
    once each, the names with an inbound edge that are not committed; the
    edges are those of the committed atoms, in commit order; the committed
    atoms have distinct names, start with the root, and each one after the
    root has an edge from an atom committed before it. *)
Definition core_inv (s : solver) : Prop :=
  (∀ n, mult (unsel s) n =
        ind (length (edges s n) ≠ 0 ∧ n ∉ names (projects (sel s)))) ∧
  (∀ n, edges s n = edges_of s (projects (sel s)) n) ∧
  Forall (fun p => (getDependenciesOf s p).2 = None) (projects (sel s)) ∧
  NoDup (names (projects (sel s))) ∧
  (∃ rest, projects (sel s) = pa (rp s) :: rest) ∧
  (∀ pre p post, projects (sel s) = pre ++ p :: post → pre ≠ [] →
                 length (edges_of s pre (paName p)) ≠ 0).

(** The queues behind the pointers [vs] are those of the atoms [ps]. *)
Definition linked (vs : list nat) (ps : list ProjectAtom) (s : solver) : Prop :=
  Forall2 (fun a p => ∃ q, queues s !! a = Some q ∧ ref q = paName p) vs ps.

Definition frontier_inv (s : solver) : Prop :=
  no_root_deps s ∧ core_inv s ∧ linked (versions s) (tail (projects (sel s))) s.

(** The state in which the atom of the top frame [a] is retracted: its name
    is back on the frontier. *)
Definition retracted_inv (a : nat) (s : solver) : Prop :=
  no_root_deps s ∧ core_inv s ∧
  ∃ vs q, versions s = vs ++ [a] ∧ linked vs (tail (projects (sel s))) s ∧
          queues s !! a = Some q ∧ ref q ∈ unsel s.

(** The fields that no step of a solve changes. *)
Definition same_env (s s' : solver) : Prop :=
  sm s' = sm s ∧ rp s' = rp s ∧ rlm s' = rlm s ∧ latest s' = latest s.

(** [selectVersion] followed by [unselectLast]. *)
Definition select_unselect (atom : ProjectAtom) (s : solver) : outcome solver :=
  s1 ← selectVersion atom s; unselectLast s1.

(** The law of section 8 as it reads: the pair gives back the selection, the
    frontier and [deps] as they were. *)
Definition restores_exactly (atom : ProjectAtom) (s : solver) : Prop :=
  ∃ s2, select_unselect atom s = Done s2 ∧
        projects (sel s2) = projects (sel s) ∧
        unsel s2 = unsel s ∧
        deps (sel s2) = deps (sel s).

(** The invariant of section 8 as it reads: the frontier holds exactly the
    keys of [deps] that are not names of committed atoms. *)
Definition frontier_as_stated (s : solver) : Prop :=
  ∀ n, n ∈ unsel s ↔
       is_Some (deps (sel s) !! n) ∧ n ∉ map paName (projects (sel s)).

(** Two source managers that give identical answers to identical requests. *)
Definition same_answers (m1 m2 : SourceManager) : Prop :=
  (∀ n, RepoExists m1 n = RepoExists m2 n) ∧
  (∀ n, VendorCodeExists m1 n = VendorCodeExists m2 n) ∧
  (∀ n, ListVersions m1 n = ListVersions m2 n) ∧
  (∀ a, GetProjectInfo m1 a = GetProjectInfo m2 a).

(** No project in the lock map has the empty name. *)
Definition lock_named (s : solver) : Prop :=
  ∀ k lp, rlm s !! k = Some lp → lpName lp ≠ ""%string.

(** The lock map and the upgrade set after the prelude of [Solve]. *)
Definition lock_into (m : gmap ProjectName LockedProject) (root : ProjectInfo)
  : gmap ProjectName LockedProject :=
  foldl (fun m lp => <[lpName lp := lp]> m) m (default [] (Lock root)).

Definition upgrade_into (l : gset ProjectName) (toUpgrade : list ProjectName)
  : gset ProjectName :=
  foldl (fun l v => {[v]} ∪ l) l toUpgrade.

#[global] Instance stack_ok_dec (s : solver) : Decision (stack_ok s).
Proof. unfold stack_ok. apply _. Defined.
(** * Properties *)


(** ** Outcomes *)

Lemma bind_Done {A B : Type} (m : outcome A) (f : A → outcome B) (b : B) :
  m ≫= f = Done b ↔ ∃ a, m = Done a ∧ f a = Done b.
Proof.
  split.
  - destruct m as [a| |]; simpl; intros E; try discriminate. now exists a.
  - intros (a & -> & E). exact E.
Qed.

Lemma bind_not_Timeout {A B : Type} (m : outcome A) (f : A → outcome B) :
  m ≠ Timeout → (∀ a, m = Done a → f a ≠ Timeout) → m ≫= f ≠ Timeout.
Proof.
  destruct m as [a| |]; simpl; intros Hm Hf; try congruence. now apply Hf.
Qed.

(** ** The frontier comparator *)

Lemma unselectedLess_frontier_before (s : solver) (i j : ProjectName) :
  unselectedLess s i j =
  frontier_before (Name (rp s))
    (fun n => bool_decide (is_Some (rlm s !! n)))
    (fun n => length (ListVersions (sm s) n).1) i j.
Proof.
  unfold unselectedLess, frontier_before.
  repeat case_decide; try reflexivity.
  destruct (bool_decide (is_Some (rlm s !! i))),
           (bool_decide (is_Some (rlm s !! j))); simpl; try reflexivity.
  destruct (length (ListVersions (sm s) i).1) as [|ni],
           (length (ListVersions (sm s) j).1) as [|nj]; simpl; try reflexivity.
  destruct (Nat.compare_spec ni nj) as [E|L|G].
  - subst. now rewrite Nat.eqb_refl.
  - destruct (Nat.eqb_spec ni nj); [lia|]. simpl.
    apply Nat.ltb_lt. lia.
  - destruct (Nat.eqb_spec ni nj); [lia|]. simpl.
    apply Nat.ltb_ge. lia.
Qed.

(** C6. The comparator of the frontier decides [i] before [j] by the
    discriminators of section 4.2 in their order: equal names give false; the
    root comes before any other name; a name in the prior lock comes before
    one that is not; two locked names are ordered lexically; two unlocked
    names are ordered by the number of versions the source manager lists
    (none before some, fewer before more), and lexically when the numbers are
    equal.  The indices are read from the frontier slice, which panics out of
    range. *)
Theorem unselectedComparator_discriminators (s : solver) (i j : nat) :
  unselectedComparator s i j =
  match unsel s !! i, unsel s !! j with
  | Some iname, Some jname =>
      Done (frontier_before (Name (rp s))
              (fun n => bool_decide (is_Some (rlm s !! n)))
              (fun n => length (ListVersions (sm s) n).1) iname jname)
  | _, _ => Panic "index out of range"
  end.
Proof.
  unfold unselectedComparator.
  destruct (unsel s !! i) as [iname|]; [|reflexivity].
  destruct (unsel s !! j) as [jname|]; [|reflexivity].
  now rewrite unselectedLess_frontier_before.
Qed.


(** ** Queues behind pointers *)

Lemma vq_set_failed_id (q : versionQueue) : vq_set_failed (failed q) q = q.
Proof. now destruct q. Qed.

Lemma vq_set_failed_twice (b b' : bool) (q : versionQueue) :
  vq_set_failed b (vq_set_failed b' q) = vq_set_failed b q.
Proof. reflexivity. Qed.

Lemma set_queues_id (s : solver) : set_queues (queues s) s = s.
Proof. now destruct s. Qed.

Lemma flags_only_refl (s : solver) : flags_only s s.
Proof.
  split; [now rewrite set_queues_id|].
  apply Forall2_same_length_lookup_2; [reflexivity|].
  intros i q q' E1 E2. exists (failed q).
  rewrite vq_set_failed_id. congruence.
Qed.

Lemma flags_only_trans (s1 s2 s3 : solver) :
  flags_only s1 s2 → flags_only s2 s3 → flags_only s1 s3.
Proof.
  intros [E1 F1] [E2 F2]. split.
  - clear F1 F2. destruct s1, s2, s3. unfold set_queues in *. simpl in *.
    injection E1 as -> -> -> -> -> -> -> ->. exact E2.
  - revert F2. generalize (queues s3). clear E1 E2.
    induction F1 as [|q q' l l' [b Hb] _ IH]; intros l3 F2.
    + inversion F2. constructor.
    + inversion F2 as [|? q3 ? l3' [b' Hb'] F2']; subst. constructor.
      * now exists b'.
      * now apply IH.
Qed.

Lemma flags_only_store (s : solver) (a : nat) (q : versionQueue) (b : bool) :
  queues s !! a = Some q → flags_only s (store a (vq_set_failed b q) s).
Proof.
  intros E. split; [reflexivity|]. simpl.
  apply Forall2_same_length_lookup_2; [now rewrite length_insert|].
  intros i x y Ex Ey.
  destruct (decide (i = a)) as [->|Hne].
  - rewrite list_lookup_insert_eq in Ey by (eapply lookup_lt_Some; eauto).
    exists b. congruence.
  - rewrite list_lookup_insert_ne in Ey by congruence.
    exists (failed x). rewrite vq_set_failed_id. congruence.
Qed.

Lemma flags_only_lookup (s s' : solver) (a : nat) (q : versionQueue) :
  flags_only s s' → queues s !! a = Some q →
  ∃ b, queues s' !! a = Some (vq_set_failed b q).
Proof.
  intros [_ F] E.
  destruct (Forall2_lookup_l _ _ _ _ _ F E) as (q' & E' & b & ->). eauto.
Qed.

Lemma flags_only_lookup_inv (s s' : solver) (a : nat) (q' : versionQueue) :
  flags_only s s' → queues s' !! a = Some q' →
  ∃ q, queues s !! a = Some q ∧ q' = vq_set_failed (failed q') q.
Proof.
  intros [_ F] E.
  destruct (Forall2_lookup_r _ _ _ _ _ F E) as (q & Eq & b & ->). eauto.
Qed.

Lemma flags_only_fields (s s' : solver) :
  flags_only s s' →
  sm s' = sm s ∧ latest s' = latest s ∧ sel s' = sel s ∧ unsel s' = unsel s ∧
  versions s' = versions s ∧ rp s' = rp s ∧ rlm s' = rlm s ∧
  attempts s' = attempts s ∧ length (queues s') = length (queues s).
Proof.
  intros [E F]. rewrite E. simpl. repeat split.
  symmetry. eapply Forall2_length, F.
Qed.

Lemma flags_only_stack_ok (s s' : solver) :
  flags_only s s' → stack_ok s → stack_ok s'.
Proof.
  unfold stack_ok. rewrite !Forall_forall. intros F Hok a Ha.
  destruct (flags_only_fields _ _ F) as (_ & _ & _ & _ & Ev & _).
  rewrite Ev in Ha. destruct (Hok a Ha) as [q Eq].
  destruct (flags_only_lookup _ _ _ _ F Eq) as [b Eb]. eauto.
Qed.

(** ** [fail] *)

Lemma fail_loop_flags_only (name : ProjectName) (vs : list nat) (s s' : solver) :
  fail_loop name vs s = Done s' → flags_only s s'.
Proof.
  induction vs as [|a vs IH]; simpl; intros E.
  - injection E as <-. apply flags_only_refl.
  - apply bind_Done in E as (vq & Ed & E). unfold deref in Ed.
    destruct (queues s !! a) as [q|] eqn:Eq; [|discriminate].
    injection Ed as <-. case_decide.
    + injection E as <-. now apply flags_only_store.
    + now apply IH.
Qed.

Lemma fail_flags_only (name : ProjectName) (s s' : solver) :
  fail name s = Done s' → flags_only s s'.
Proof.
  unfold fail. case_decide.
  - intros E. injection E as <-. apply flags_only_refl.
  - apply fail_loop_flags_only.
Qed.

Lemma fail_loop_total (name : ProjectName) (vs : list nat) (s : solver) :
  (∀ a, a ∈ vs → is_Some (queues s !! a)) → ∃ s', fail_loop name vs s = Done s'.
Proof.
  induction vs as [|a vs IH]; simpl; intros Hok; [eauto|].
  destruct (Hok a) as [q Eq]; [left|]. unfold deref. rewrite Eq. simpl.
  case_decide; [eauto|]. apply IH. intros a' Ha'. apply Hok. now right.
Qed.

Lemma fail_total (name : ProjectName) (s : solver) :
  stack_ok s → ∃ s', fail name s = Done s'.
Proof.
  unfold stack_ok. rewrite Forall_forall.
  intros Hok. unfold fail. case_decide; [eauto|]. now apply fail_loop_total.
Qed.

Lemma fail_loop_none (name : ProjectName) (vs : list nat) (s : solver) :
  (∀ a, a ∈ vs → ∃ q, queues s !! a = Some q ∧ ref q ≠ name) →
  fail_loop name vs s = Done s.
Proof.
  induction vs as [|a vs IH]; simpl; intros Hno; [reflexivity|].
  destruct (Hno a) as (q & Eq & Hq); [left|]. unfold deref. rewrite Eq. simpl.
  case_decide; [contradiction|]. apply IH. intros a' Ha'. apply Hno. now right.
Qed.

Lemma fail_loop_oldest (name : ProjectName) (older younger : list nat) (a : nat)
    (q : versionQueue) (s : solver) :
  (∀ a', a' ∈ older → ∃ q', queues s !! a' = Some q' ∧ ref q' ≠ name) →
  queues s !! a = Some q → ref q = name →
  fail_loop name (older ++ a :: younger) s = Done (store a (vq_set_failed true q) s).
Proof.
  induction older as [|a0 older IH]; simpl; intros Hno Eq Hq.
  - unfold deref. rewrite Eq. simpl. case_decide; [reflexivity|contradiction].
  - destruct (Hno a0) as (q0 & Eq0 & Hq0); [left|]. unfold deref. rewrite Eq0. simpl.
    case_decide; [contradiction|]. apply IH; auto.
    intros a' Ha'. apply Hno. now right.
Qed.

(** C8. [fail name] does nothing when [name] is the root's name or when no
    queue on the stack carries it; otherwise it sets the [failed] flag of the
    oldest queue on the stack whose [ref] is [name] and changes nothing else:
    every other queue, a younger one of the same [ref] included, and every
    other field of the solver is as before. *)
Theorem fail_marks_oldest_queue (s : solver) (name : ProjectName) :
  (Name (rp s) = name → fail name s = Done s) ∧
  ((∀ a, a ∈ versions s → ∃ q, queues s !! a = Some q ∧ ref q ≠ name) →
   fail name s = Done s) ∧
  (∀ older a younger q,
     Name (rp s) ≠ name →
     versions s = older ++ a :: younger →
     (∀ a', a' ∈ older → ∃ q', queues s !! a' = Some q' ∧ ref q' ≠ name) →
     queues s !! a = Some q → ref q = name →
     ∃ s', fail name s = Done s' ∧
           queues s' !! a = Some (vq_set_failed true q) ∧
           (∀ a', a' ≠ a → queues s' !! a' = queues s !! a') ∧
           s' = set_queues (queues s') s).
Proof.
  split; [|split].
  - intros E. unfold fail. now rewrite decide_True.
  - intros Hno. unfold fail. case_decide; [reflexivity|]. now apply fail_loop_none.
  - intros older a younger q Hroot Ev Hno Eq Hq.
    exists (store a (vq_set_failed true q) s). split; [|split; [|split]].
    + unfold fail. rewrite decide_False by assumption. rewrite Ev.
      now apply fail_loop_oldest.
    + simpl. apply list_lookup_insert_eq. eapply lookup_lt_Some; eauto.
    + intros a' Hne. simpl. now apply list_lookup_insert_ne.
    + reflexivity.
Qed.

(** ** The frontier as a multiset *)

Lemma mult_app (l k : list ProjectName) (n : ProjectName) :
  mult (l ++ k) n = mult l n + mult k n.
Proof. apply count_occ_app. Qed.

Lemma mult_cons (x : ProjectName) (l : list ProjectName) (n : ProjectName) :
  mult (x :: l) n = ind (x = n) + mult l n.
Proof.
  unfold mult, ind. simpl.
  destruct (String.string_dec x n); case_decide; try contradiction; reflexivity.
Qed.

Lemma mult_perm (l k : list ProjectName) :
  l ≡ₚ k ↔ ∀ n, mult l n = mult k n.
Proof. apply Permutation_count_occ. Qed.

Lemma mult_elem_of (l : list ProjectName) (n : ProjectName) :
  n ∈ l ↔ 0 < mult l n.
Proof. rewrite list_elem_of_In. apply count_occ_In. Qed.

Lemma mult_remove (x : ProjectName) (l : list ProjectName) (n : ProjectName) :
  mult (remove x l) n = mult l n - ind (x = n).
Proof.
  induction l as [|y l IH]; [reflexivity|].
  cbn [remove]. destruct (decide (y = x)) as [->|Hy].
  - rewrite mult_cons. unfold ind. case_decide; lia.
  - rewrite !mult_cons, IH. unfold ind.
    repeat case_decide; subst; try contradiction; try lia.
Qed.

Lemma insert_lookup_perm {A : Type} (l : list A) (j : nat) (x b : A) :
  l !! j = Some b → b :: <[j := x]> l ≡ₚ x :: l.
Proof.
  revert j. induction l as [|y l IH]; intros [|j] E; simpl in *; try discriminate.
  - injection E as ->. apply perm_swap.
  - etransitivity; [apply perm_swap|]. etransitivity; [|apply perm_swap].
    constructor. now apply IH.
Qed.

Lemma swap_perm {A : Type} (l : list A) (i j : nat) (a b : A) :
  l !! i = Some a → l !! j = Some b → <[j := a]> (<[i := b]> l) ≡ₚ l.
Proof.
  revert i j. induction l as [|y l IH]; intros [|i] [|j] Ei Ej; simpl in *;
    try discriminate.
  - injection Ei as ->. reflexivity.
  - injection Ei as ->. now apply insert_lookup_perm.
  - injection Ej as ->. now apply insert_lookup_perm.
  - constructor. now apply IH.
Qed.

Lemma Swap_shuffles (i j : nat) (s : solver) :
  i < length (unsel s) → j < length (unsel s) →
  ∃ s', Swap i j s = Done s' ∧ frontier_shuffled s s'.
Proof.
  intros Hi Hj. unfold Swap.
  destruct (lookup_lt_is_Some_2 _ _ Hi) as [a Ea].
  destruct (lookup_lt_is_Some_2 _ _ Hj) as [b Eb].
  rewrite Ea, Eb. eexists. split; [reflexivity|]. split; [reflexivity|].
  simpl. now apply swap_perm.
Qed.

Lemma up_S (n j : nat) (s : solver) :
  up (S n) j s =
  if decide ((j - 1) / 2 = j) then Done s else
  lt ← unselectedComparator s j ((j - 1) / 2);
  if negb lt then Done s
  else s' ← Swap ((j - 1) / 2) j s; up n ((j - 1) / 2) s'.
Proof. reflexivity. Qed.

Lemma parent_le (j : nat) : (j - 1) / 2 ≤ j.
Proof.
  transitivity (j - 1); [|lia]. apply Nat.Div0.div_le_upper_bound. lia.
Qed.

Lemma up_shuffles (n j : nat) (s : solver) :
  j < n → j < length (unsel s) →
  ∃ s', up n j s = Done s' ∧ frontier_shuffled s s'.
Proof.
  revert j s. induction n as [|n IH]; intros j s Hn Hj; [lia|].
  rewrite up_S. pose proof (parent_le j) as Hi.
  generalize dependent ((j - 1) / 2). intros i Hi.
  case_decide as Hij.
  { exists s. split; [reflexivity|]. split; [now destruct s|reflexivity]. }
  unfold unselectedComparator.
  destruct (lookup_lt_is_Some_2 (unsel s) j Hj) as [a Ea].
  destruct (lookup_lt_is_Some_2 (unsel s) i) as [b Eb]; [lia|].
  rewrite Ea, Eb. simpl.
  destruct (unselectedLess s a b); simpl.
  - destruct (Swap_shuffles i j s) as (s1 & E1 & F1 & P1); [lia|lia|].
    rewrite E1. simpl.
    destruct (IH i s1) as (s2 & E2 & F2 & P2); [lia| |].
    { rewrite (Permutation_length P1). lia. }
    exists s2. split; [exact E2|]. split.
    + rewrite F2. rewrite F1. reflexivity.
    + etransitivity; eauto.
  - exists s. split; [reflexivity|]. split; [now destruct s|reflexivity].
Qed.

Lemma heap_Push_shuffles (x : ProjectName) (s : solver) :
  ∃ s', heap_Push x s = Done s' ∧
        s' = set_unsel (unsel s') s ∧ unsel s' ≡ₚ x :: unsel s.
Proof.
  unfold heap_Push.
  destruct (up_shuffles (length (unsel (set_unsel (unsel s ++ [x]) s)))
              (length (unsel (set_unsel (unsel s ++ [x]) s)) - 1)
              (set_unsel (unsel s ++ [x]) s)) as (s' & E & F & P).
  - simpl. rewrite length_app. simpl. lia.
  - simpl. rewrite length_app. simpl. lia.
  - exists s'. split; [exact E|]. split.
    + rewrite F. reflexivity.
    + rewrite P. simpl. symmetry. apply Permutation_cons_append.
Qed.

(** ** [selectVersion] and [unselectLast] *)

Ltac ind_solve :=
  unfold ind; repeat case_decide; simpl in *; try lia;
  exfalso; intuition (subst; simpl in *; (lia || congruence)).

Lemma core_only_refl (s : solver) : core_only s s.
Proof. now destruct s. Qed.

Lemma core_only_trans (s1 s2 s3 : solver) :
  core_only s1 s2 → core_only s2 s3 → core_only s1 s3.
Proof.
  unfold core_only. intros E1 E2. destruct s1, s2, s3.
  unfold set_sel, set_unsel in *. simpl in *.
  injection E1 as -> -> -> -> -> -> ->. exact E2.
Qed.

Lemma core_only_fields (s s' : solver) :
  core_only s s' →
  sm s' = sm s ∧ latest s' = latest s ∧ versions s' = versions s ∧ rp s' = rp s ∧
  rlm s' = rlm s ∧ attempts s' = attempts s ∧ queues s' = queues s.
Proof. intros E. rewrite E. simpl. repeat split. Qed.

Lemma getDependenciesOf_env (s s' : solver) (atom : ProjectAtom) :
  sm s' = sm s → rp s' = rp s → getDependenciesOf s' atom = getDependenciesOf s atom.
Proof. unfold getDependenciesOf. now intros -> ->. Qed.

Lemma edges_set_deps (s : solver) (k : ProjectName) (l : list Dependency)
    (n : ProjectName) :
  edges (set_deps (<[k := l]> (deps (sel s))) s) n =
  if decide (k = n) then l else edges s n.
Proof.
  unfold edges, getDependenciesOn. simpl. rewrite lookup_insert.
  now case_decide.
Qed.

Lemma onName_cons (n : ProjectName) (d : ProjectDep) (ds : list ProjectDep) :
  onName n (d :: ds) = if decide (pdName d = n) then d :: onName n ds else onName n ds.
Proof. unfold onName. rewrite filter_cons. reflexivity. Qed.

Lemma selectVersion_dep_spec (atom : ProjectAtom) (s : solver) (d : ProjectDep) :
  ∃ s', selectVersion_dep atom s d = Done s' ∧ core_only s s' ∧
        projects (sel s') = projects (sel s) ∧
        (∀ n, edges s' n =
              edges s n ++ if decide (pdName d = n) then [mkDependency atom d] else []) ∧
        (∀ n, mult (unsel s') n =
              mult (unsel s) n + ind (pdName d = n ∧ length (edges s n) = 0)).
Proof.
  unfold selectVersion_dep.
  set (l := getDependenciesOn (pdName d) (sel s) ++ [mkDependency atom d]).
  set (s1 := set_deps (<[pdName d := l]> (deps (sel s))) s).
  assert (Hedges : ∀ n, edges s1 n =
            edges s n ++ if decide (pdName d = n) then [mkDependency atom d] else []).
  { intros n. unfold s1. rewrite edges_set_deps. case_decide.
    - subst n. reflexivity.
    - now rewrite app_nil_r. }
  assert (Hlen : length l = S (length (edges s (pdName d)))).
  { unfold l, edges. rewrite length_app. simpl. lia. }
  case_decide as Hone.
  - destruct (heap_Push_shuffles (pdName d) s1) as (s' & E & F & P).
    exists s'. split; [exact E|]. split; [|split; [|split]].
    + rewrite F. unfold s1. now destruct s.
    + rewrite F. reflexivity.
    + intros n. rewrite <- Hedges. rewrite F. reflexivity.
    + intros n. apply mult_perm with (n := n) in P. rewrite P, mult_cons.
      unfold s1. simpl. ind_solve.
  - exists s1. split; [reflexivity|]. split; [|split; [|split]].
    + unfold s1. now destruct s.
    + reflexivity.
    + exact Hedges.
    + intros n. unfold s1. simpl. unfold ind. case_decide as Hc; [|lia].
      destruct Hc as [<- Hc]. lia.
Qed.

Lemma select_loop_spec (atom : ProjectAtom) (ds : list ProjectDep) (s : solver) :
  ∃ s', foldM (selectVersion_dep atom) ds s = Done s' ∧ core_only s s' ∧
        projects (sel s') = projects (sel s) ∧
        (∀ n, edges s' n = edges s n ++ map (mkDependency atom) (onName n ds)) ∧
        (∀ n, mult (unsel s') n =
              mult (unsel s) n +
              ind (length (edges s n) = 0 ∧ length (onName n ds) ≠ 0)).
Proof.
  revert s. induction ds as [|d ds IH]; intros s.
  - exists s. split; [reflexivity|]. split; [apply core_only_refl|].
    split; [reflexivity|]. split.
    + intros n. now rewrite app_nil_r.
    + intros n. unfold ind. case_decide as Hc; [|lia]. now destruct Hc.
  - destruct (selectVersion_dep_spec atom s d) as (s1 & E1 & F1 & P1 & G1 & M1).
    destruct (IH s1) as (s' & E & F & P & G & M).
    exists s'. split; [|split; [|split; [|split]]].
    + simpl. rewrite E1. exact E.
    + eapply core_only_trans; eauto.
    + congruence.
    + intros n. rewrite G, G1, onName_cons, <- app_assoc.
      now case_decide.
    + intros n. rewrite M, M1, G1, onName_cons, length_app. unfold ind.
      repeat case_decide; simpl in *; try lia; exfalso; intuition (simpl in *; lia).
Qed.

Lemma length_removelast {A : Type} (l : list A) :
  length (removelast l) = length l - 1.
Proof. rewrite removelast_firstn_len, length_take. lia. Qed.

Lemma unselectLast_dep_spec (s : solver) (d : ProjectDep) :
  length (edges s (pdName d)) ≠ 0 →
  ∃ s', unselectLast_dep s d = Done s' ∧ core_only s s' ∧
        projects (sel s') = projects (sel s) ∧
        (∀ n, edges s' n =
              if decide (pdName d = n) then removelast (edges s n) else edges s n) ∧
        (∀ n, mult (unsel s') n =
              mult (unsel s) n - ind (pdName d = n ∧ length (edges s n) = 1)).
Proof.
  intros Hne. unfold unselectLast_dep. fold (edges s (pdName d)).
  rewrite decide_False by assumption.
  set (s1 := set_deps (<[pdName d := removelast (edges s (pdName d))]> (deps (sel s))) s).
  assert (Hedges : ∀ n, edges s1 n =
            if decide (pdName d = n) then removelast (edges s n) else edges s n).
  { intros n. unfold s1. rewrite edges_set_deps. case_decide; now subst. }
  rewrite length_removelast.
  case_decide as Hz.
  - eexists. split; [reflexivity|]. split; [|split; [|split]].
    + unfold s1. now destruct s.
    + reflexivity.
    + exact Hedges.
    + intros n. simpl. rewrite mult_remove. ind_solve.
  - exists s1. split; [reflexivity|]. split; [|split; [|split]].
    + unfold s1. now destruct s.
    + reflexivity.
    + exact Hedges.
    + intros n. unfold s1. simpl. unfold ind. case_decide as Hc; [|lia].
      destruct Hc as [<- Hc]. lia.
Qed.

Lemma removelast_take {A : Type} (l : list A) (k : nat) :
  take (length (removelast l) - k) (removelast l) = take (length l - S k) l.
Proof.
  rewrite length_removelast. rewrite removelast_firstn_len.
  rewrite take_take. f_equal. lia.
Qed.

Lemma unselect_loop_spec (ds : list ProjectDep) (s : solver) :
  (∀ n, length (onName n ds) ≤ length (edges s n)) →
  ∃ s', foldM unselectLast_dep ds s = Done s' ∧ core_only s s' ∧
        projects (sel s') = projects (sel s) ∧
        (∀ n, edges s' n =
              take (length (edges s n) - length (onName n ds)) (edges s n)) ∧
        (∀ n, mult (unsel s') n =
              mult (unsel s) n -
              ind (length (edges s n) = length (onName n ds) ∧
                   length (onName n ds) ≠ 0)).
Proof.
  revert s. induction ds as [|d ds IH]; intros s Hle.
  - exists s. split; [reflexivity|]. split; [apply core_only_refl|].
    split; [reflexivity|]. split.
    + intros n. simpl. rewrite Nat.sub_0_r. now rewrite firstn_all.
    + intros n. unfold ind. case_decide as Hc; [|lia]. now destruct Hc.
  - destruct (unselectLast_dep_spec s d) as (s1 & E1 & F1 & P1 & G1 & M1).
    { specialize (Hle (pdName d)). rewrite onName_cons, decide_True in Hle by reflexivity.
      simpl in Hle. lia. }
    destruct (IH s1) as (s' & E & F & P & G & M).
    { intros n. rewrite G1. specialize (Hle n). rewrite onName_cons in Hle.
      case_decide; [|exact Hle]. rewrite length_removelast. simpl in Hle. lia. }
    exists s'. split; [|split; [|split; [|split]]].
    + simpl. rewrite E1. exact E.
    + eapply core_only_trans; eauto.
    + congruence.
    + intros n. rewrite G, G1, onName_cons. case_decide; [|reflexivity].
      rewrite removelast_take. simpl. reflexivity.
    + intros n. rewrite M, M1, G1, onName_cons. specialize (Hle n).
      rewrite onName_cons in Hle. unfold ind.
      case_decide as Hd; [rewrite length_removelast; simpl in *|];
        repeat case_decide; simpl in *; try lia; exfalso; intuition (simpl in *; lia).
Qed.

Lemma selectVersion_spec (atom : ProjectAtom) (s : solver) (ds : list ProjectDep) :
  getDependenciesOf s atom = (ds, None) →
  ∃ s', selectVersion atom s = Done s' ∧ core_only s s' ∧
        projects (sel s') = projects (sel s) ++ [atom] ∧
        (∀ n, edges s' n = edges s n ++ map (mkDependency atom) (onName n ds)) ∧
        (∀ n, mult (unsel s') n =
              mult (unsel s) n - ind (paName atom = n) +
              ind (length (edges s n) = 0 ∧ length (onName n ds) ≠ 0)).
Proof.
  intros Hds. unfold selectVersion.
  set (s0 := set_projects _ (set_unsel _ s)).
  rewrite (getDependenciesOf_env s s0) by reflexivity. rewrite Hds.
  destruct (select_loop_spec atom ds s0) as (s' & E & F & P & G & M).
  exists s'. split; [exact E|]. split; [|split; [|split]].
  - eapply core_only_trans; [|exact F]. unfold s0. now destruct s.
  - rewrite P. reflexivity.
  - intros n. rewrite G. reflexivity.
  - intros n. rewrite M. unfold s0 at 1. simpl. rewrite mult_remove. reflexivity.
Qed.

Lemma selectVersion_Done (atom : ProjectAtom) (s s' : solver) :
  selectVersion atom s = Done s' →
  ∃ ds, getDependenciesOf s atom = (ds, None).
Proof.
  unfold selectVersion.
  set (s0 := set_projects _ (set_unsel _ s)).
  rewrite (getDependenciesOf_env s s0) by reflexivity.
  destruct (getDependenciesOf s atom) as [ds [e|]]; [discriminate|eauto].
Qed.

Lemma unselectLast_spec (s : solver) (ps : list ProjectAtom) (atom : ProjectAtom)
    (ds : list ProjectDep) :
  projects (sel s) = ps ++ [atom] →
  getDependenciesOf s atom = (ds, None) →
  (∀ n, length (onName n ds) ≤ length (edges s n)) →
  ∃ s', unselectLast s = Done s' ∧ core_only s s' ∧
        projects (sel s') = ps ∧
        (∀ n, edges s' n =
              take (length (edges s n) - length (onName n ds)) (edges s n)) ∧
        (∀ n, mult (unsel s') n =
              mult (unsel s) n + ind (paName atom = n) -
              ind (length (edges s n) = length (onName n ds) ∧
                   length (onName n ds) ≠ 0)).
Proof.
  intros Hps Hds Hle. unfold unselectLast. rewrite Hps, last_snoc, removelast_last.
  set (s0 := set_projects ps s).
  destruct (heap_Push_shuffles (paName atom) s0) as (s1 & E1 & F1 & P1).
  rewrite E1. simpl.
  rewrite (getDependenciesOf_env s s1) by (rewrite F1; reflexivity). rewrite Hds.
  assert (Hedges : ∀ n, edges s1 n = edges s n) by (intros n; rewrite F1; reflexivity).
  destruct (unselect_loop_spec ds s1) as (s' & E & F & P & G & M).
  { intros n. rewrite Hedges. apply Hle. }
  exists s'. split; [exact E|]. split; [|split; [|split]].
  - eapply core_only_trans; [|exact F]. rewrite F1. unfold s0. now destruct s.
  - rewrite P, F1. reflexivity.
  - intros n. rewrite G, Hedges. reflexivity.
  - intros n. rewrite M, Hedges. apply mult_perm with (n := n) in P1.
    rewrite P1, mult_cons. unfold s0. simpl. lia.
Qed.

Lemma foldM_unselect_frame (ds : list ProjectDep) (s s' : solver) :
  foldM unselectLast_dep ds s = Done s' →
  core_only s s' ∧ projects (sel s') = projects (sel s).
Proof.
  revert s. induction ds as [|d ds IH]; simpl; intros s E.
  - injection E as <-. split; [apply core_only_refl|reflexivity].
  - apply bind_Done in E as (s1 & E1 & E).
    destruct (IH _ E) as [F P]. unfold unselectLast_dep in E1.
    repeat case_decide; try discriminate; injection E1 as <-.
    + split; [|rewrite P; reflexivity].
      eapply core_only_trans; [|exact F]. now destruct s.
    + split; [|rewrite P; reflexivity].
      eapply core_only_trans; [|exact F]. now destruct s.
Qed.

Lemma unselectLast_Done (s s' : solver) :
  unselectLast s = Done s' →
  core_only s s' ∧
  ∃ ps atom ds, projects (sel s) = ps ++ [atom] ∧ projects (sel s') = ps ∧
                getDependenciesOf s atom = (ds, None).
Proof.
  unfold unselectLast. intros E.
  destruct (last (projects (sel s))) as [atom|] eqn:El; [|discriminate].
  apply last_Some in El as [ps Eps].
  apply bind_Done in E as (s1 & E1 & E).
  destruct (heap_Push_shuffles (paName atom) (set_projects (removelast (projects (sel s))) s))
    as (s1' & E1' & F1 & P1).
  rewrite E1 in E1'. injection E1' as <-.
  rewrite (getDependenciesOf_env s s1) in E by (rewrite F1; reflexivity).
  destruct (getDependenciesOf s atom) as [ds [e|]] eqn:Eds; [discriminate|].
  destruct (foldM_unselect_frame _ _ _ E) as [F P].
  split.
  - eapply core_only_trans; [|exact F]. rewrite F1. now destruct s.
  - exists ps, atom, ds. split; [exact Eps|]. split; [|exact Eds].
    rewrite P, F1. simpl. rewrite Eps. apply removelast_last.
Qed.

(** C4, as amended. For an atom whose name is on the frontier and whose
    declared dependencies the source manager returns, [selectVersion] followed
    by [unselectLast] restores the list of committed atoms exactly, restores
    the inbound edges recorded on every name, and leaves the frontier with
    the same names (as a multiset); no other field of the solver changes.
    The map [deps] may keep a key with an empty list of edges, and the slice
    of the frontier may hold its names in another order. *)
Theorem select_unselect_restores (atom : ProjectAtom) (s : solver)
    (ds : list ProjectDep) :
  getDependenciesOf s atom = (ds, None) →
  paName atom ∈ unsel s →
  ∃ s1 s2, selectVersion atom s = Done s1 ∧ unselectLast s1 = Done s2 ∧
           projects (sel s2) = projects (sel s) ∧
           (∀ n, getDependenciesOn n (sel s2) = getDependenciesOn n (sel s)) ∧
           unsel s2 ≡ₚ unsel s ∧
           core_only s s2.
Proof.
  intros Hds Hin.
  destruct (selectVersion_spec atom s ds Hds) as (s1 & E1 & F1 & P1 & G1 & M1).
  destruct (unselectLast_spec s1 (projects (sel s)) atom ds) as (s2 & E2 & F2 & P2 & G2 & M2).
  - exact P1.
  - rewrite <- Hds. apply getDependenciesOf_env; rewrite F1; reflexivity.
  - intros n. rewrite G1, length_app, length_map. lia.
  - exists s1, s2. split; [exact E1|]. split; [exact E2|]. split; [exact P2|].
    split; [|split].
    + intros n. change (edges s2 n = edges s n).
      rewrite G2, G1, length_app, length_map.
      replace (length (edges s n) + length (onName n ds) - length (onName n ds))
        with (length (edges s n)) by lia.
      apply take_app_length.
    + apply mult_perm. intros n. rewrite M2, M1, G1, length_app, length_map.
      apply mult_elem_of in Hin.
      destruct (decide (paName atom = n)) as [<-|Hne]; ind_solve.
    + eapply core_only_trans; eauto.
Qed.

(** ** What the checks do to the store of queues *)

Lemma queue_grows_refl (q : versionQueue) : queue_grows q q.
Proof. split; reflexivity. Qed.

Lemma queue_grows_trans (q1 q2 q3 : versionQueue) :
  queue_grows q1 q2 → queue_grows q2 q3 → queue_grows q1 q3.
Proof. intros [E1 P1] [E2 P2]. split; [congruence|]. etransitivity; eauto. Qed.

Lemma Forall2_queue_grows_refl (l : list versionQueue) : Forall2 queue_grows l l.
Proof. induction l; constructor; auto using queue_grows_refl. Qed.

Lemma Forall2_queue_grows_trans (l1 l2 l3 : list versionQueue) :
  Forall2 queue_grows l1 l2 → Forall2 queue_grows l2 l3 → Forall2 queue_grows l1 l3.
Proof.
  intros F1. revert l3. induction F1 as [|q q' l l' Hq _ IH]; intros l3 F2.
  - inversion F2. constructor.
  - inversion F2 as [|? q3 ? l3' Hq' F2']; subst. constructor.
    + eapply queue_grows_trans; eauto.
    + now apply IH.
Qed.

Lemma store_grows_refl (s : solver) : store_grows s s.
Proof.
  split; [now rewrite set_queues_id|].
  exists (queues s), []. split; [now rewrite app_nil_r|].
  apply Forall2_queue_grows_refl.
Qed.

Lemma store_grows_trans (s1 s2 s3 : solver) :
  store_grows s1 s2 → store_grows s2 s3 → store_grows s1 s3.
Proof.
  intros [E1 (l1 & l2 & Q1 & F1)] [E2 (k1 & k2 & Q2 & F2)]. split.
  - clear - E1 E2. destruct s1, s2, s3. unfold set_queues in *. simpl in *.
    injection E1 as -> -> -> -> -> -> -> ->. exact E2.
  - rewrite Q1 in F2. apply Forall2_app_inv_l in F2 as (k1a & k1b & Fa & Fb & ->).
    exists k1a, (k1b ++ k2). split; [now rewrite Q2, app_assoc|].
    eapply Forall2_queue_grows_trans; eauto.
Qed.

Lemma flags_only_store_grows (s s' : solver) : flags_only s s' → store_grows s s'.
Proof.
  intros [E F]. split; [exact E|].
  exists (queues s'), []. split; [now rewrite app_nil_r|].
  eapply Forall2_impl; [exact F|]. intros q q' [b ->]. split; reflexivity.
Qed.

Lemma store_grows_fields (s s' : solver) :
  store_grows s s' →
  sm s' = sm s ∧ latest s' = latest s ∧ sel s' = sel s ∧ unsel s' = unsel s ∧
  versions s' = versions s ∧ rp s' = rp s ∧ rlm s' = rlm s ∧
  attempts s' = attempts s.
Proof. intros [E _]. rewrite E. simpl. repeat split. Qed.

Lemma store_grows_lookup (s s' : solver) (a : nat) (q : versionQueue) :
  store_grows s s' → queues s !! a = Some q →
  ∃ q', queues s' !! a = Some q' ∧ queue_grows q q'.
Proof.
  intros [_ (l1 & l2 & Q & F)] E.
  destruct (Forall2_lookup_l _ _ _ _ _ F E) as (q' & E' & Hq).
  exists q'. split; [|exact Hq]. rewrite Q. now apply lookup_app_l_Some.
Qed.

Lemma store_grows_stack_ok (s s' : solver) :
  store_grows s s' → stack_ok s → stack_ok s'.
Proof.
  unfold stack_ok. rewrite !Forall_forall. intros G Hok a Ha.
  destruct (store_grows_fields _ _ G) as (_ & _ & _ & _ & Ev & _).
  rewrite Ev in Ha. destruct (Hok a Ha) as [q Eq].
  destruct (store_grows_lookup _ _ _ _ G Eq) as (q' & E' & _). eauto.
Qed.

Lemma store_grows_store (s : solver) (a : nat) (q q' : versionQueue) :
  queues s !! a = Some q → queue_grows q q' → store_grows s (store a q' s).
Proof.
  intros E Hq. split; [reflexivity|]. simpl.
  exists (<[a := q']> (queues s)), []. split; [now rewrite app_nil_r|].
  apply Forall2_same_length_lookup_2; [now rewrite length_insert|].
  intros i x y Ex Ey. destruct (decide (i = a)) as [->|Hne].
  - rewrite list_lookup_insert_eq in Ey by (eapply lookup_lt_Some; eauto).
    congruence.
  - rewrite list_lookup_insert_ne in Ey by congruence.
    replace y with x by congruence. apply queue_grows_refl.
Qed.

Lemma store_grows_alloc (s : solver) (q : versionQueue) :
  store_grows s (alloc q s).2 ∧ queues (alloc q s).2 !! (alloc q s).1 = Some q.
Proof.
  split.
  - split; [reflexivity|]. simpl. exists (queues s), [q]. split; [reflexivity|].
    apply Forall2_queue_grows_refl.
  - simpl. apply list_lookup_middle. reflexivity.
Qed.

(** The loops of [satisfiable] only set flags. *)
Lemma failparents_loop_flags_only (v : Version) (ds : list Dependency)
    (acc : list Dependency) (s : solver) (fp : list Dependency) (s' : solver) :
  foldM (failparents_body v) ds (acc, s) = Done (fp, s') → flags_only s s'.
Proof.
  revert s acc. induction ds as [|d ds IH]; simpl; intros s acc E.
  - injection E as _ <-. apply flags_only_refl.
  - apply bind_Done in E as ([acc1 s1] & E1 & E).
    eapply flags_only_trans; [|eapply IH; exact E].
    destruct (negb _).
    + apply bind_Done in E1 as (s2 & E2 & E1). injection E1 as _ <-.
      eapply fail_flags_only; eauto.
    + injection E1 as _ <-. apply flags_only_refl.
Qed.

Lemma failparents_flags_only (v : Version) (ds : list Dependency) (s : solver)
    (fp : list Dependency) (s' : solver) :
  failparents v ds s = Done (fp, s') → flags_only s s'.
Proof. apply failparents_loop_flags_only. Qed.

Lemma failsiblings_loop_flags_only (c : Constraint) (ds : list Dependency)
    (acc1 acc2 : list Dependency) (s : solver) (fs nfs : list Dependency)
    (s' : solver) :
  foldM (failsiblings_body c) ds (acc1, acc2, s) = Done (fs, nfs, s') →
  flags_only s s'.
Proof.
  revert s acc1 acc2. induction ds as [|d ds IH]; simpl; intros s acc1 acc2 E.
  - injection E as _ _ <-. apply flags_only_refl.
  - apply bind_Done in E as ([[a1 a2] s1] & E1 & E).
    eapply flags_only_trans; [|eapply IH; exact E].
    destruct (negb _).
    + apply bind_Done in E1 as (s2 & E2 & E1). injection E1 as _ _ <-.
      eapply fail_flags_only; eauto.
    + injection E1 as _ _ <-. apply flags_only_refl.
Qed.

Lemma failsiblings_flags_only (c : Constraint) (ds : list Dependency) (s : solver)
    (fs nfs : list Dependency) (s' : solver) :
  failsiblings c ds s = Done (fs, nfs, s') → flags_only s s'.
Proof. apply failsiblings_loop_flags_only. Qed.

Lemma satisfiable_deps_flags_only (atom : ProjectAtom) (ds : list ProjectDep)
    (s : solver) (r : option error) (s' : solver) :
  satisfiable_deps atom ds s = Done (r, s') → flags_only s s'.
Proof.
  induction ds as [|d ds IH]; simpl; intros E.
  - injection E as _ <-. apply flags_only_refl.
  - destruct (negb (MatchesAny _ _)).
    + apply bind_Done in E as ([[fs nfs] s1] & E1 & E). injection E as _ <-.
      eapply failsiblings_flags_only; eauto.
    + destruct (selected _ _) as [chosen|]; [|now apply IH].
      destruct (negb (Matches _ _)); [|now apply IH].
      apply bind_Done in E as (s1 & E1 & E). injection E as _ <-.
      eapply fail_flags_only; eauto.
Qed.

Lemma satisfiable_flags_only (atom : ProjectAtom) (s : solver) (r : option error)
    (s' : solver) :
  satisfiable atom s = Done (r, s') → flags_only s s'.
Proof.
  unfold satisfiable. case_decide; [discriminate|].
  destruct (negb (Matches _ _)).
  - intros E. apply bind_Done in E as ([fp s1] & E1 & E). injection E as _ <-.
    eapply failparents_flags_only; eauto.
  - destruct (getDependenciesOf s atom) as [ds [e|]].
    + intros E. injection E as _ <-. apply flags_only_refl.
    + apply satisfiable_deps_flags_only.
Qed.

(** [advance] keeps the name and the flag, and appends to the log. *)
Lemma advance_grows (reason : option error) (m : SourceManager) (q q' : versionQueue)
    (e : option error) :
  advance reason m q = (q', e) →
  ref q' = ref q ∧ failed q' = failed q ∧
  fails q' = fails q ++ match reason with Some r => [r] | None => [] end.
Proof.
  unfold advance. intros E.
  assert (Hfl : match reason with Some r => fails q ++ [r] | None => fails q end =
                fails q ++ match reason with Some r => [r] | None => [] end).
  { destruct reason; [reflexivity|now rewrite app_nil_r]. }
  destruct (tail (pi q)), (allLoaded q);
    try (injection E as <- _; simpl; auto).
  destruct (ListVersions m (ref q)) as [vl [err|]]; injection E as <- _; simpl; auto.
Qed.

Lemma advance_queue_grows (reason : option error) (m : SourceManager)
    (q q' : versionQueue) (e : option error) :
  advance reason m q = (q', e) → queue_grows q q'.
Proof.
  intros E. destruct (advance_grows _ _ _ _ _ E) as (Er & _ & Ef).
  split; [exact Er|]. rewrite Ef. now apply prefix_app_r.
Qed.

(** ** [findValidVersion] *)

Lemma findValidVersion_loop_store_grows (n a : nat) (s : solver) (b : bool)
    (s' : solver) :
  findValidVersion_loop n a s = Done (b, s') → store_grows s s'.
Proof.
  revert s. induction n as [|n IH]; simpl; intros s E; [discriminate|].
  apply bind_Done in E as (q & Eq & E).
  apply bind_Done in E as ([err s1] & Es & E).
  pose proof (flags_only_store_grows _ _ (satisfiable_flags_only _ _ _ _ Es)) as G1.
  destruct err as [e|]; [|injection E as _ <-; exact G1].
  apply bind_Done in E as (q1 & Eq1 & E).
  unfold deref in Eq1. destruct (queues s1 !! a) as [q1'|] eqn:Eq1'; [|discriminate].
  injection Eq1 as <-.
  destruct (advance (Some e) (sm s1) q1') as [q2 aerr] eqn:Ea.
  pose proof (store_grows_store s1 a q1' q2 Eq1' (advance_queue_grows _ _ _ _ _ Ea)) as G2.
  pose proof (store_grows_trans _ _ _ G1 G2) as G.
  destruct aerr as [ae|]; [injection E as _ <-; exact G|].
  destruct (isExhausted q2); [injection E as _ <-; exact G|].
  eapply store_grows_trans; [exact G|]. now apply IH.
Qed.

Lemma advance_candidates_left (reason : option error) (m : SourceManager)
    (q q' : versionQueue) :
  advance reason m q = (q', None) → isExhausted q' = false →
  candidates_left m q' < candidates_left m q.
Proof.
  unfold advance, candidates_left, isExhausted. intros E Hx.
  destruct (pi q) as [|v [|v' rest]] eqn:Epi; simpl in E;
    destruct (allLoaded q) eqn:El;
    try (destruct (ListVersions m (ref q)) as [vl [err|]] eqn:Ev; [discriminate|]);
    injection E as <-; simpl in *; try rewrite Ev; simpl; try lia;
    try discriminate.
Qed.

Lemma fail_loop_not_Timeout (name : ProjectName) (vs : list nat) (s : solver) :
  fail_loop name vs s ≠ Timeout.
Proof.
  induction vs as [|a vs IH]; simpl; [discriminate|].
  unfold deref. destruct (queues s !! a); simpl; [|discriminate].
  case_decide; [discriminate|exact IH].
Qed.

Lemma fail_not_Timeout (name : ProjectName) (s : solver) : fail name s ≠ Timeout.
Proof. unfold fail. case_decide; [discriminate|apply fail_loop_not_Timeout]. Qed.

Lemma foldM_not_Timeout {A S : Type} (body : S → A → outcome S) (l : list A) (s : S) :
  (∀ s x, body s x ≠ Timeout) → foldM body l s ≠ Timeout.
Proof.
  intros Hb. revert s. induction l as [|x l IH]; simpl; intros s; [discriminate|].
  apply bind_not_Timeout; auto.
Qed.

Lemma satisfiable_deps_not_Timeout (atom : ProjectAtom) (ds : list ProjectDep)
    (s : solver) :
  satisfiable_deps atom ds s ≠ Timeout.
Proof.
  induction ds as [|d ds IH]; simpl; [discriminate|].
  destruct (negb (MatchesAny _ _)).
  - apply bind_not_Timeout.
    + apply foldM_not_Timeout. intros [[fs nfs] s0] x. simpl.
      destruct (negb _); [|discriminate].
      apply bind_not_Timeout; [apply fail_not_Timeout|discriminate].
    + intros [[fs nfs] s0] _. discriminate.
  - destruct (selected _ _); [|exact IH].
    destruct (negb (Matches _ _)); [|exact IH].
    apply bind_not_Timeout; [apply fail_not_Timeout|discriminate].
Qed.

Lemma satisfiable_not_Timeout (atom : ProjectAtom) (s : solver) :
  satisfiable atom s ≠ Timeout.
Proof.
  unfold satisfiable. case_decide; [discriminate|].
  destruct (negb (Matches _ _)).
  - apply bind_not_Timeout.
    + apply foldM_not_Timeout. intros [fp s0] x. simpl.
      destruct (negb _); [|discriminate].
      apply bind_not_Timeout; [apply fail_not_Timeout|discriminate].
    + intros [fp s0] _. discriminate.
  - destruct (getDependenciesOf s atom) as [ds [e|]]; [discriminate|].
    apply satisfiable_deps_not_Timeout.
Qed.

Lemma deref_not_Timeout (a : nat) (s : solver) : deref a s ≠ Timeout.
Proof. unfold deref. destruct (queues s !! a); discriminate. Qed.

Lemma findValidVersion_loop_S (n a : nat) (s : solver) :
  findValidVersion_loop (S n) a s =
  q ← deref a s;
  '(err, s1) ← satisfiable (mkAtom (ref q) (current q)) s;
  match err with
  | None => Done (true, s1)
  | Some e =>
      q1 ← deref a s1;
      let '(q2, aerr) := advance (Some e) (sm s1) q1 in
      match aerr with
      | Some _ => Done (false, store a q2 s1)
      | None =>
          if isExhausted q2 then Done (false, store a q2 s1)
          else findValidVersion_loop n a (store a q2 s1)
      end
  end.
Proof. reflexivity. Qed.

Lemma deref_Some (a : nat) (s : solver) (q : versionQueue) :
  queues s !! a = Some q → deref a s = Done q.
Proof. unfold deref. now intros ->. Qed.

Lemma findValidVersion_loop_not_Timeout (n a : nat) (s : solver) (q : versionQueue) :
  queues s !! a = Some q → candidates_left (sm s) q < n →
  findValidVersion_loop n a s ≠ Timeout.
Proof.
  revert s q. induction n as [|n IH]; intros s q Eq Hn; [lia|].
  rewrite findValidVersion_loop_S, (deref_Some _ _ _ Eq). cbn [mbind outcome_bind].
  apply bind_not_Timeout; [apply satisfiable_not_Timeout|].
  intros [err s1] Es. destruct err as [e|]; [|discriminate].
  pose proof (satisfiable_flags_only _ _ _ _ Es) as F.
  destruct (flags_only_lookup _ _ _ _ F Eq) as [b Eb].
  destruct (flags_only_fields _ _ F) as (Esm & _).
  rewrite (deref_Some _ _ _ Eb). cbn [mbind outcome_bind].
  destruct (advance (Some e) (sm s1) (vq_set_failed b q)) as [q2 aerr] eqn:Ea.
  destruct aerr as [ae|]; [discriminate|].
  destruct (isExhausted q2) eqn:Hx; [discriminate|].
  apply (IH _ q2).
  - simpl. apply list_lookup_insert_eq. eapply lookup_lt_Some; eauto.
  - simpl. rewrite Esm in *.
    pose proof (advance_candidates_left _ _ _ _ Ea Hx) as Hlt.
    unfold candidates_left in *. simpl in *. lia.
Qed.

(** [findValidVersion] needs no fuel from its caller. *)
Lemma findValidVersion_not_Timeout (a : nat) (s : solver) :
  findValidVersion a s ≠ Timeout.
Proof.
  unfold findValidVersion.
  destruct (queues s !! a) as [q|] eqn:Eq.
  - rewrite (deref_Some _ _ _ Eq). cbn [mbind outcome_bind].
    case_decide; [discriminate|].
    apply bind_not_Timeout.
    + eapply findValidVersion_loop_not_Timeout; [exact Eq|].
      unfold walk_bound, candidates_left. lia.
    + intros [found s1] _. destruct found; [discriminate|].
      destruct (getDependenciesOn _ _); [discriminate|].
      apply bind_not_Timeout; [apply fail_not_Timeout|].
      intros s2 _. apply bind_not_Timeout; [apply deref_not_Timeout|discriminate].
  - unfold deref. rewrite Eq. discriminate.
Qed.

Lemma findValidVersion_store_grows (a : nat) (s : solver) (r : option error)
    (s' : solver) :
  findValidVersion a s = Done (r, s') → store_grows s s'.
Proof.
  unfold findValidVersion. intros E.
  apply bind_Done in E as (q & Eq & E). case_decide; [discriminate|].
  apply bind_Done in E as ([found s1] & El & E).
  pose proof (findValidVersion_loop_store_grows _ _ _ _ _ El) as G1.
  destruct found; [injection E as _ <-; exact G1|].
  destruct (getDependenciesOn _ _) as [|d ds]; [discriminate|].
  apply bind_Done in E as (s2 & Ef & E).
  apply bind_Done in E as (q2 & Eq2 & E). injection E as _ <-.
  eapply store_grows_trans; [exact G1|].
  apply flags_only_store_grows. eapply fail_flags_only; eauto.
Qed.

(** C7. When the walk of [findValidVersion] over the queue at [a] ends
    without a satisfiable version, the driver calls [fail] on the depender
    of the first inbound edge recorded on the queue's project, and returns
    the aggregate [noVersionError] on that project whose [fails] are exactly
    the entries appended to the queue's failure log during this walk: the
    log after the walk is the log at entry followed by them. *)
Theorem findValidVersion_reports_walk (a : nat) (s s1 : solver) (q : versionQueue)
    (d : Dependency) (ds : list Dependency) :
  stack_ok s →
  queues s !! a = Some q →
  nilVersion ≠ current q →
  findValidVersion_loop (walk_bound (sm s) q) a s = Done (false, s1) →
  getDependenciesOn (ref q) (sel s) = d :: ds →
  ∃ s2 q2 appended,
    fail (paName (Depender d)) s1 = Done s2 ∧
    findValidVersion a s = Done (Some (noVersionError (ref q) appended), s2) ∧
    queues s2 !! a = Some q2 ∧
    fails q2 = fails q ++ appended.
Proof.
  intros Hok Eq Hcur El Hd.
  pose proof (findValidVersion_loop_store_grows _ _ _ _ _ El) as G1.
  destruct (store_grows_fields _ _ G1) as (_ & _ & Esel & _).
  destruct (fail_total (paName (Depender d)) s1) as [s2 Ef].
  { eapply store_grows_stack_ok; eauto. }
  destruct (store_grows_lookup _ _ _ _ G1 Eq) as (q1 & Eq1 & Er1 & [k Ek]).
  destruct (flags_only_lookup _ _ _ _ (fail_flags_only _ _ _ Ef) Eq1) as [b Eq2].
  exists s2, (vq_set_failed b q1), k.
  split; [exact Ef|]. split; [|split; [exact Eq2|exact Ek]].
  unfold findValidVersion. rewrite (deref_Some _ _ _ Eq). cbn [mbind outcome_bind].
  rewrite decide_False by assumption. rewrite El. cbn [mbind outcome_bind].
  rewrite Esel, Hd. rewrite Ef. cbn [mbind outcome_bind].
  rewrite (deref_Some _ _ _ Eq2). cbn [mbind outcome_bind].
  cbn [ref fails vq_set_failed]. rewrite Er1, Ek, drop_app_length. reflexivity.
Qed.

(** ** [satisfiable] *)

Lemma fail_stack_ok (name : ProjectName) (s s' : solver) :
  fail name s = Done s' → stack_ok s → stack_ok s'.
Proof. intros E. eapply flags_only_stack_ok, fail_flags_only, E. Qed.

Lemma failparents_loop_spec (v : Version) (ds acc : list Dependency) (s : solver) :
  stack_ok s →
  ∃ s', foldM (failparents_body v) ds (acc, s) =
          Done (acc ++ List.filter (rejects v) ds, s') ∧
        fail_all (dependers (List.filter (rejects v) ds)) s = Done s'.
Proof.
  revert acc s. induction ds as [|d ds IH]; intros acc s Hok.
  - exists s. simpl. now rewrite app_nil_r.
  - cbn [foldM failparents_body List.filter].
    change (negb (Matches (pdConstraint (Dep d)) v)) with (rejects v d).
    destruct (rejects v d).
    + destruct (fail_total (paName (Depender d)) s Hok) as [s1 E1].
      destruct (IH (acc ++ [d]) s1) as (s' & E & Ef); [eapply fail_stack_ok; eauto|].
      exists s'. rewrite E1. cbn [mbind outcome_bind]. rewrite E, <- app_assoc.
      split; [reflexivity|]. unfold fail_all, dependers. cbn [map foldM].
      rewrite E1. exact Ef.
    + cbn [mbind outcome_bind]. now apply IH.
Qed.

Lemma failsiblings_loop_spec (c : Constraint) (ds acc1 acc2 : list Dependency)
    (s : solver) :
  stack_ok s →
  ∃ s', foldM (failsiblings_body c) ds (acc1, acc2, s) =
          Done (acc1 ++ List.filter (disjoint_with c) ds,
                acc2 ++ List.filter (fun e => negb (disjoint_with c e)) ds, s') ∧
        fail_all (dependers (List.filter (disjoint_with c) ds)) s = Done s'.
Proof.
  revert acc1 acc2 s. induction ds as [|d ds IH]; intros acc1 acc2 s Hok.
  - exists s. simpl. now rewrite !app_nil_r.
  - cbn [foldM failsiblings_body List.filter].
    change (negb (MatchesAny (pdConstraint (Dep d)) c)) with (disjoint_with c d).
    destruct (disjoint_with c d); cbn [negb].
    + destruct (fail_total (paName (Depender d)) s Hok) as [s1 E1].
      destruct (IH (acc1 ++ [d]) acc2 s1) as (s' & E & Ef); [eapply fail_stack_ok; eauto|].
      exists s'. rewrite E1. cbn [mbind outcome_bind]. rewrite E, <- app_assoc.
      split; [reflexivity|]. unfold fail_all, dependers. cbn [map foldM].
      rewrite E1. exact Ef.
    + cbn [mbind outcome_bind].
      destruct (IH acc1 (acc2 ++ [d]) s Hok) as (s' & E & Ef).
      exists s'. rewrite E, <- app_assoc. split; [reflexivity|exact Ef].
Qed.

Lemma satisfiable_deps_cons (atom : ProjectAtom) (d : ProjectDep)
    (ds : list ProjectDep) (s : solver) :
  satisfiable_deps atom (d :: ds) s =
  if negb (MatchesAny (getConstraint (pdName d) (sel s)) (pdConstraint d)) then
    '(failsib, nofailsib, s') ←
      failsiblings (pdConstraint d) (getDependenciesOn (pdName d) (sel s)) s;
    Done (Some (disjointConstraintFailure (mkDependency atom d) failsib nofailsib
                  (getConstraint (pdName d) (sel s))), s')
  else
    match selected (pdName d) (sel s) with
    | Some chosen =>
        if negb (Matches (pdConstraint d) (paVersion chosen)) then
          s' ← fail (pdName d) s;
          Done (Some (constraintNotAllowedFailure (mkDependency atom d)
                        (paVersion chosen)), s')
        else satisfiable_deps atom ds s
    | None => satisfiable_deps atom ds s
    end.
Proof. reflexivity. Qed.

Lemma satisfiable_deps_admitted (atom : ProjectAtom) (d : ProjectDep)
    (ds : list ProjectDep) (s : solver) :
  dep_admitted s d → satisfiable_deps atom (d :: ds) s = satisfiable_deps atom ds s.
Proof.
  intros [Hany Hsel]. rewrite satisfiable_deps_cons, Hany. cbn [negb].
  destruct (selected (pdName d) (sel s)) as [chosen|]; [|reflexivity].
  now rewrite (Hsel chosen eq_refl).
Qed.

Lemma satisfiable_deps_prefix (atom : ProjectAtom) (pre rest : list ProjectDep)
    (s : solver) :
  Forall (dep_admitted s) pre →
  satisfiable_deps atom (pre ++ rest) s = satisfiable_deps atom rest s.
Proof.
  induction 1 as [|d pre Hd _ IH]; [reflexivity|].
  rewrite <- app_comm_cons, satisfiable_deps_admitted by assumption. exact IH.
Qed.

Lemma satisfiable_deps_success (atom : ProjectAtom) (ds : list ProjectDep)
    (s s' : solver) :
  satisfiable_deps atom ds s = Done (None, s') → Forall (dep_admitted s) ds ∧ s' = s.
Proof.
  induction ds as [|d ds IH]; intros E.
  - cbn [satisfiable_deps] in E. assert (s' = s) as -> by congruence.
    split; [constructor|reflexivity].
  - rewrite satisfiable_deps_cons in E.
    destruct (MatchesAny (getConstraint (pdName d) (sel s)) (pdConstraint d)) eqn:Hany;
      cbn [negb] in E.
    + destruct (selected (pdName d) (sel s)) as [chosen|] eqn:Hsel.
      * destruct (Matches (pdConstraint d) (paVersion chosen)) eqn:Hm; cbn [negb] in E.
        -- destruct (IH E) as [Hf ->]. split; [|reflexivity]. constructor; [|exact Hf].
           split; [exact Hany|]. intros c Hc. congruence.
        -- apply bind_Done in E as (s1 & _ & E). discriminate.
      * destruct (IH E) as [Hf ->]. split; [|reflexivity]. constructor; [|exact Hf].
        split; [exact Hany|]. intros c Hc. congruence.
    + apply bind_Done in E as ([[fs nfs] s1] & _ & E). discriminate.
Qed.

(** C2, as amended. For a non-empty atom, [satisfiable] goes through its
    checks in order.  (1) When the compound constraint on the atom's name
    rejects its version, the result is [versionNotAllowedFailure] whose
    [failparent] are exactly the inbound edges whose own constraint rejects
    the version, after [fail] on each of their dependers.  (2) Otherwise,
    when the source manager fails to return the atom's declared dependencies,
    that error is passed back as it is and nothing is marked.  (3) Otherwise
    the result is success exactly when every declared dependency is admitted
    (the compound constraint on its target meets its constraint, and the
    selected version of the target, if any, matches it), and at the first
    declared dependency that is not admitted the result is
    [disjointConstraintFailure], with [failsib] exactly the sibling edges
    disjoint with its constraint (each depender failed) and [nofailsib] the
    other siblings, or else [constraintNotAllowedFailure] with the selected
    version, after [fail] on the target. *)
Theorem satisfiable_checks_in_order (atom : ProjectAtom) (s : solver) :
  stack_ok s →
  emptyProjectAtom ≠ atom →
  let C := getConstraint (paName atom) (sel s) in
  let v := paVersion atom in
  (Matches C v = false →
   let failparent := List.filter (rejects v) (getDependenciesOn (paName atom) (sel s)) in
   ∃ s', satisfiable atom s = Done (Some (versionNotAllowedFailure atom failparent C), s') ∧
         fail_all (dependers failparent) s = Done s') ∧
  (Matches C v = true →
   ∀ ds e, getDependenciesOf s atom = (ds, Some e) →
           satisfiable atom s = Done (Some e, s)) ∧
  (Matches C v = true →
   ∀ ds, getDependenciesOf s atom = (ds, None) →
     ((∃ s', satisfiable atom s = Done (None, s')) ↔ Forall (dep_admitted s) ds) ∧
     (Forall (dep_admitted s) ds → satisfiable atom s = Done (None, s)) ∧
     (∀ pre d post,
        ds = pre ++ d :: post → Forall (dep_admitted s) pre →
        let C' := getConstraint (pdName d) (sel s) in
        let siblings := getDependenciesOn (pdName d) (sel s) in
        (MatchesAny C' (pdConstraint d) = false →
         let failsib := List.filter (disjoint_with (pdConstraint d)) siblings in
         let nofailsib :=
           List.filter (fun e => negb (disjoint_with (pdConstraint d) e)) siblings in
         ∃ s', satisfiable atom s =
                 Done (Some (disjointConstraintFailure (mkDependency atom d)
                               failsib nofailsib C'), s') ∧
               fail_all (dependers failsib) s = Done s') ∧
        (MatchesAny C' (pdConstraint d) = true →
         ∀ chosen, selected (pdName d) (sel s) = Some chosen →
                   Matches (pdConstraint d) (paVersion chosen) = false →
         ∃ s', satisfiable atom s =
                 Done (Some (constraintNotAllowedFailure (mkDependency atom d)
                               (paVersion chosen)), s') ∧
               fail (pdName d) s = Done s'))).
Proof.
  intros Hok Hne C v. split; [|split].
  - intros Hm failparent.
    destruct (failparents_loop_spec v (getDependenciesOn (paName atom) (sel s)) [] s Hok)
      as (s' & E & Ef).
    exists s'. split; [|exact Ef].
    unfold satisfiable. rewrite decide_False by assumption.
    fold C v. rewrite Hm. cbn [negb]. unfold failparents. rewrite E. reflexivity.
  - intros Hm ds e Hds. unfold satisfiable. rewrite decide_False by assumption.
    fold C v. rewrite Hm. cbn [negb]. now rewrite Hds.
  - intros Hm ds Hds.
    assert (Hsat : satisfiable atom s = satisfiable_deps atom ds s).
    { unfold satisfiable. rewrite decide_False by assumption.
      fold C v. rewrite Hm. cbn [negb]. now rewrite Hds. }
    assert (Hall : Forall (dep_admitted s) ds → satisfiable atom s = Done (None, s)).
    { intros Hf. rewrite Hsat. rewrite <- (app_nil_r ds).
      now rewrite satisfiable_deps_prefix. }
    split; [|split; [exact Hall|]].
    + split.
      * intros [s' E]. rewrite Hsat in E. now apply satisfiable_deps_success in E.
      * intros Hf. exists s. now apply Hall.
    + intros pre d post -> Hpre C' siblings. rewrite Hsat.
      rewrite satisfiable_deps_prefix, satisfiable_deps_cons by assumption.
      fold C' siblings. split.
      * intros Hany failsib nofailsib. rewrite Hany. cbn [negb].
        destruct (failsiblings_loop_spec (pdConstraint d) siblings [] [] s Hok)
          as (s' & E & Ef).
        exists s'. split; [|exact Ef]. unfold failsiblings. rewrite E. reflexivity.
      * intros Hany chosen Hsel Hrej. rewrite Hany, Hsel, Hrej. cbn [negb].
        destruct (fail_total (pdName d) s Hok) as [s' Ef].
        exists s'. split; [|exact Ef]. rewrite Ef. reflexivity.
Qed.

(** ** [createVersionQueue] *)

Lemma newVersionQueue_ref (name : ProjectName) (lockv : ProjectAtom)
    (m : SourceManager) (q : versionQueue) (e : option error) :
  newVersionQueue nilpaRevision name lockv m = (Some q, e) → ref q = name ∧ e = None.
Proof.
  unfold newVersionQueue. case_decide.
  - destruct (ListVersions m name) as [vl [err|]]; intros E; [discriminate|].
    injection E as <- <-. now split.
  - intros E. injection E as <- <-. now split.
Qed.

Lemma newVersionQueue_at_spec (name : ProjectName) (lockv : ProjectAtom)
    (s : solver) (r : option nat) (e : option error) (s' : solver) :
  newVersionQueue_at nilpaRevision name lockv s = (r, e, s') →
  store_grows s s' ∧
  (e = None → ∃ a q, r = Some a ∧ queues s' !! a = Some q ∧ ref q = name).
Proof.
  unfold newVersionQueue_at.
  destruct (newVersionQueue nilpaRevision name lockv (sm s)) as [[q|] err] eqn:En.
  - destruct (newVersionQueue_ref _ _ _ _ _ En) as [Href ->].
    destruct (store_grows_alloc s q) as [G L].
    destruct (alloc q s) as [a s1]. intros E. injection E as <- <- <-.
    split; [exact G|]. intros _. exists a, q. auto.
  - intros E. injection E as <- <- <-. split; [apply store_grows_refl|].
    intros ->. unfold newVersionQueue in En. case_decide; [|discriminate].
    destruct (ListVersions (sm s) name) as [vl [err'|]]; discriminate.
Qed.

Lemma createVersionQueue_spec (name : ProjectName) (s : solver) (r : option nat)
    (e : option error) (s' : solver) :
  createVersionQueue nilpaRevision name s = Done (r, e, s') →
  store_grows s s' ∧
  (e = None → ∃ a q, r = Some a ∧ queues s' !! a = Some q ∧ ref q = name).
Proof.
  unfold createVersionQueue.
  case_decide.
  { intros E. injection E as E. exact (newVersionQueue_at_spec _ _ _ _ _ _ E). }
  destruct (RepoExists (sm s) name) as [ex [err|]].
  { intros E. injection E as <- <- <-. split; [apply store_grows_refl|discriminate]. }
  destruct (if ex then (true, None) else VendorCodeExists (sm s) name)
    as [[|] [err|]];
    try (intros E; injection E as <- <- <-;
         split; [apply store_grows_refl|discriminate]).
  destruct (newVersionQueue_at nilpaRevision name (getLockVersionIfValid nilpaRevision name s) s)
    as [[r0 e0] s0] eqn:Eb.
  destruct (newVersionQueue_at_spec _ _ _ _ _ _ Eb) as [G Hq].
  destruct e0 as [err|].
  { destruct r0; intros E; injection E as <- <- <-; (split; [exact G|discriminate]). }
  destruct r0 as [a|]; [|discriminate].
  intros E. apply bind_Done in E as ([err s1] & Ef & E). injection E as <- <- <-.
  pose proof (findValidVersion_store_grows _ _ _ _ Ef) as G1.
  split; [eapply store_grows_trans; eauto|].
  intros _. destruct (Hq eq_refl) as (a' & q & Ea & Eq & Href).
  injection Ea as <-.
  destruct (store_grows_lookup _ _ _ _ G1 Eq) as (q' & Eq' & Href' & _).
  exists a, q'. split; [reflexivity|]. split; [exact Eq'|congruence].
Qed.

(** ** Invariants of the driver

    An invariant [J] of the states at rest and a property [K a] of the states
    in which the atom of the top frame [a] is retracted are carried through
    [backtrack] and through a round of [solve] when the single moves of the
    driver respect them. *)

Section DriverInvariant.
Variable J : solver → Prop.
Variable K : nat → solver → Prop.

Hypothesis J_discard : ∀ s a s',
  J s → last (versions s) = Some a →
  unselectLast (set_versions (removelast (versions s)) s) = Done s' → J s'.
Hypothesis J_retract : ∀ s a s',
  J s → last (versions s) = Some a → unselectLast s = Done s' → K a s'.
Hypothesis K_store : ∀ a s s', K a s → store_grows s s' → K a s'.
Hypothesis K_recommit : ∀ a s q s',
  K a s → queues s !! a = Some q →
  selectVersion (mkAtom (ref q) (current q)) s = Done s' → J s'.
Hypothesis K_drop : ∀ a s, K a s → J (set_versions (removelast (versions s)) s).
Hypothesis J_attempts : ∀ s z, J s → J (set_attempts z s).
Hypothesis J_store : ∀ s s', J s → store_grows s s' → J s'.
Hypothesis J_commit : ∀ s a q s',
  J s → (∃ l, unsel s = ref q :: l) → queues s !! a = Some q →
  selectVersion (mkAtom (ref q) (current q)) s = Done s' →
  J (set_versions (versions s' ++ [a]) s').

Lemma backtrack_search_invariant (n : nat) (s : solver) (b : bool) (s' : solver) :
  J s → backtrack_search n s = Done (b, s') →
  J s' ∧ (b = true → ∃ a, last (versions s') = Some a).
Proof.
  revert s. induction n as [|n IH]; intros s HJ E; [discriminate|].
  cbn [backtrack_search] in E.
  destruct (last (versions s)) as [a|] eqn:El.
  - apply bind_Done in E as (q & Eq & E). destruct (failed q).
    + injection E as <- <-. split; [exact HJ|]. eauto.
    + apply bind_Done in E as (s1 & Eu & E). eapply IH; [|exact E].
      eapply J_discard; eauto.
  - injection E as <- <-. split; [exact HJ|discriminate].
Qed.

Lemma backtrack_loop_invariant (n : nat) (s : solver) (b : bool) (s' : solver) :
  J s → backtrack_loop n s = Done (b, s') → J s'.
Proof.
  revert s. induction n as [|n IH]; intros s HJ E; [discriminate|].
  cbn [backtrack_loop] in E.
  apply bind_Done in E as ([marked s1] & Es & E).
  destruct (backtrack_search_invariant _ _ _ _ HJ Es) as [HJ1 Htop].
  destruct marked; cbn [negb] in E; [|injection E as <- <-; exact HJ1].
  destruct (Htop eq_refl) as [a El]. rewrite El in E.
  apply bind_Done in E as (s2 & Eu & E).
  pose proof (J_retract _ _ _ HJ1 El Eu) as HK2.
  apply bind_Done in E as (q & Eq & E).
  unfold deref in Eq. destruct (queues s2 !! a) as [q0|] eqn:Eq0; [|discriminate].
  injection Eq as <-.
  destruct (advance None (sm s2) q0) as [q' aerr] eqn:Ea.
  pose proof (store_grows_store s2 a q0 q' Eq0 (advance_queue_grows _ _ _ _ _ Ea)) as G3.
  pose proof (K_store _ _ _ HK2 G3) as HK3.
  destruct (bool_decide (aerr = None) && negb (isExhausted q')).
  - apply bind_Done in E as ([err s4] & Ef & E).
    pose proof (K_store _ _ _ HK3 (findValidVersion_store_grows _ _ _ _ Ef)) as HK4.
    destruct err as [e|].
    + eapply IH; [|exact E]. eapply K_drop; eauto.
    + apply bind_Done in E as (q4 & Eq4 & E).
      apply bind_Done in E as (s5 & Esel & E). injection E as _ <-.
      unfold deref in Eq4. destruct (queues s4 !! a) as [q4'|] eqn:Eq4'; [|discriminate].
      injection Eq4 as <-. eapply K_recommit; eauto.
  - eapply IH; [|exact E]. eapply K_drop; eauto.
Qed.

Lemma backtrack_invariant (s : solver) (b : bool) (s' : solver) :
  J s → backtrack s = Done (b, s') → J s'.
Proof.
  intros HJ. unfold backtrack. case_decide.
  - intros E. injection E as _ <-. exact HJ.
  - intros E. apply bind_Done in E as ([ok s1] & El & E).
    pose proof (backtrack_loop_invariant _ _ _ _ HJ El) as HJ1.
    destruct ok; cbn [negb] in E; [|injection E as _ <-; exact HJ1].
    case_decide; injection E as _ <-; [exact HJ1|]. now apply J_attempts.
Qed.

Lemma solve_step_invariant (s : solver)
    (r : option (list ProjectAtom * option error)) (s' : solver) :
  J s → solve_step nilpaRevision s = Done (r, s') → J s'.
Proof.
  intros HJ. unfold solve_step, nextUnselected.
  destruct (unsel s) as [|name l] eqn:Eu; cbn [negb].
  { intros E. injection E as _ <-. exact HJ. }
  intros E. apply bind_Done in E as ([[queue err] s1] & Ec & E).
  destruct (createVersionQueue_spec _ _ _ _ _ Ec) as [G Hq].
  pose proof (J_store _ _ HJ G) as HJ1.
  destruct err as [e|].
  - apply bind_Done in E as ([ok s2] & Eb & E).
    pose proof (backtrack_invariant _ _ _ HJ1 Eb) as HJ2.
    destruct ok; injection E as _ <-; exact HJ2.
  - destruct (Hq eq_refl) as (a & q & -> & Eq & Href).
    rewrite (deref_Some _ _ _ Eq) in E. cbn [mbind outcome_bind] in E.
    case_decide; [discriminate|].
    apply bind_Done in E as (s2 & Esel & E). injection E as _ <-.
    eapply J_commit; eauto.
    destruct (store_grows_fields _ _ G) as (_ & _ & _ & -> & _).
    exists l. now rewrite Eu, Href.
Qed.

End DriverInvariant.

(** ** The stack of queues and the selection *)

Lemma selectVersion_effect (atom : ProjectAtom) (s s' : solver) :
  selectVersion atom s = Done s' →
  ∃ ds, getDependenciesOf s atom = (ds, None) ∧ core_only s s' ∧
        projects (sel s') = projects (sel s) ++ [atom] ∧
        (∀ n, edges s' n = edges s n ++ map (mkDependency atom) (onName n ds)) ∧
        (∀ n, mult (unsel s') n =
              mult (unsel s) n - ind (paName atom = n) +
              ind (length (edges s n) = 0 ∧ length (onName n ds) ≠ 0)).
Proof.
  intros E. destruct (selectVersion_Done _ _ _ E) as [ds Hds].
  destruct (selectVersion_spec atom s ds Hds) as (s'' & E' & Hrest).
  assert (s'' = s') as -> by congruence.
  exists ds. split; [exact Hds|exact Hrest].
Qed.

Lemma last_length {A : Type} (l : list A) (x : A) :
  last l = Some x → length (removelast l) + 1 = length l.
Proof.
  intros E. apply last_Some in E as [l' ->].
  rewrite removelast_last, length_app. reflexivity.
Qed.

Lemma stack_discard (N : nat) (s : solver) (a : nat) (s' : solver) :
  length (versions s) + 1 = length (projects (sel s)) ∧ length (versions s) ≤ N →
  last (versions s) = Some a →
  unselectLast (set_versions (removelast (versions s)) s) = Done s' →
  length (versions s') + 1 = length (projects (sel s')) ∧ length (versions s') ≤ N.
Proof.
  intros [HJ HN] El Eu.
  destruct (unselectLast_Done _ _ Eu) as (F & ps & atom & ds & Eps & Eps' & _).
  destruct (core_only_fields _ _ F) as (_ & _ & Ev & _).
  apply last_length in El. simpl in Eps, Ev.
  rewrite Ev, Eps'. rewrite Eps, length_app in HJ. simpl in HJ. lia.
Qed.

Lemma stack_retract (N : nat) (s : solver) (a : nat) (s' : solver) :
  length (versions s) + 1 = length (projects (sel s)) ∧ length (versions s) ≤ N →
  last (versions s) = Some a → unselectLast s = Done s' →
  length (versions s') = length (projects (sel s')) ∧
  0 < length (versions s') ≤ N.
Proof.
  intros [HJ HN] El Eu.
  destruct (unselectLast_Done _ _ Eu) as (F & ps & atom & ds & Eps & Eps' & _).
  destruct (core_only_fields _ _ F) as (_ & _ & Ev & _).
  apply last_length in El.
  rewrite Ev, Eps'. rewrite Eps, length_app in HJ. simpl in HJ. lia.
Qed.

Lemma stack_recommit (N : nat) (s : solver) (atom : ProjectAtom) (s' : solver) :
  length (versions s) = length (projects (sel s)) ∧ 0 < length (versions s) ≤ N →
  selectVersion atom s = Done s' →
  length (versions s') + 1 = length (projects (sel s')) ∧ length (versions s') ≤ N.
Proof.
  intros [HK HN] E.
  destruct (selectVersion_effect _ _ _ E) as (ds & _ & F & Ep & _).
  destruct (core_only_fields _ _ F) as (_ & _ & Ev & _).
  rewrite Ev, Ep, length_app. simpl. lia.
Qed.

Lemma backtrack_stack (s : solver) (b : bool) (s' : solver) :
  length (versions s) + 1 = length (projects (sel s)) →
  backtrack s = Done (b, s') →
  length (versions s') + 1 = length (projects (sel s')) ∧
  length (versions s') ≤ length (versions s).
Proof.
  intros HJ E.
  apply (backtrack_invariant
           (fun s' => length (versions s') + 1 = length (projects (sel s')) ∧
                      length (versions s') ≤ length (versions s))
           (fun _ s' => length (versions s') = length (projects (sel s')) ∧
                        0 < length (versions s') ≤ length (versions s)))
    with (s := s) (b := b); try assumption.
  - intros. eapply stack_discard; eauto.
  - intros. eapply stack_retract; eauto.
  - intros a s1 s2 HK G.
    destruct (store_grows_fields _ _ G) as (_ & _ & -> & _ & -> & _). exact HK.
  - intros. eapply stack_recommit; eauto.
  - intros a s1 [HK HN]. simpl. rewrite length_removelast. lia.
  - intros s1 z HJ1. exact HJ1.
  - split; [exact HJ|lia].
Qed.

Lemma solve_step_stack (s : solver)
    (r : option (list ProjectAtom * option error)) (s' : solver) :
  length (versions s) + 1 = length (projects (sel s)) →
  solve_step nilpaRevision s = Done (r, s') →
  length (versions s') + 1 = length (projects (sel s')).
Proof.
  intros HJ E.
  apply (solve_step_invariant
           (fun s' => length (versions s') + 1 = length (projects (sel s')))
           (fun _ s' => length (versions s') = length (projects (sel s')) ∧
                        0 < length (versions s')))
    with (s := s) (r := r); try assumption.
  - intros s1 a s2 HJ1 El Eu.
    destruct (stack_discard (length (versions s1)) s1 a s2); auto.
  - intros s1 a s2 HJ1 El Eu.
    destruct (stack_retract (length (versions s1)) s1 a s2) as [? [? _]]; auto.
  - intros a s1 s2 HK G.
    destruct (store_grows_fields _ _ G) as (_ & _ & -> & _ & -> & _). exact HK.
  - intros a s1 q s2 [HK HN] _ E1.
    destruct (stack_recommit (length (versions s1)) s1 _ s2 (conj HK (conj HN (le_n _))) E1)
      as [? _]; assumption.
  - intros a s1 [HK HN]. simpl. rewrite length_removelast. lia.
  - intros s1 z HJ1. exact HJ1.
  - intros s1 s2 HJ1 G.
    destruct (store_grows_fields _ _ G) as (_ & _ & -> & _ & -> & _). exact HJ1.
  - intros s1 a q s2 HJ1 _ _ E1.
    destruct (selectVersion_effect _ _ _ E1) as (ds & _ & F & Ep & _).
    destruct (core_only_fields _ _ F) as (_ & _ & Ev & _).
    simpl. rewrite length_app, Ev, Ep, length_app. simpl. lia.
Qed.

Lemma Solve_prepare_stack (root : ProjectInfo) (toUpgrade : list ProjectName)
    (s s0 : solver) :
  Solve_prepare root toUpgrade s = Done s0 →
  versions s0 = versions s ∧ projects (sel s0) = [pa root].
Proof.
  unfold Solve_prepare. intros E.
  destruct (selectVersion_effect _ _ _ E) as (ds & _ & F & Ep & _).
  destruct (core_only_fields _ _ F) as (_ & _ & Ev & _).
  split; [rewrite Ev; now destruct (Lock root)|].
  rewrite Ep. simpl. now destruct (Lock root).
Qed.

Lemma between_steps_invariant (J : solver → Prop) (s0 st : solver) :
  (∀ s r s', J s → solve_step nilpaRevision s = Done (r, s') → J s') →
  J s0 → between_steps s0 st → J st.
Proof.
  intros Hstep H0 Hb.
  assert (Hhead : ∀ s, loop_head s0 s → J s).
  { induction 1; eauto. }
  destruct Hb as [Hl|(s & r & Hl & E)]; eauto.
Qed.

(** C3. In a solve that starts with an empty stack of version queues, as
    on a solver made by [NewSolver], every state between driver steps (after
    the root is seeded, after a commit, after [backtrack] returns) has one
    queue on the stack for each committed atom but the root.  A call of
    [backtrack] in such a solve takes the same number of frames off the stack
    and of atoms off the selection: each pop goes with one [unselectLast],
    and the [unselectLast] of a frame that is kept with the [selectVersion]
    of its re-commit. *)
Theorem versions_track_selection (root : ProjectInfo) (toUpgrade : list ProjectName)
    (s s0 st : solver) :
  versions s = [] →
  Solve_prepare root toUpgrade s = Done s0 →
  between_steps s0 st →
  length (versions st) + 1 = length (projects (sel st)) ∧
  ∀ s1 b s2,
    store_grows st s1 → backtrack s1 = Done (b, s2) →
    length (versions s2) + 1 = length (projects (sel s2)) ∧
    ∃ k, length (versions s1) = length (versions s2) + k ∧
         length (projects (sel s1)) = length (projects (sel s2)) + k.
Proof.
  intros Hv Hprep Hb.
  assert (HJ : length (versions st) + 1 = length (projects (sel st))).
  { apply (between_steps_invariant
             (fun s => length (versions s) + 1 = length (projects (sel s))) s0 st);
      [apply solve_step_stack| |exact Hb].
    destruct (Solve_prepare_stack _ _ _ _ Hprep) as [-> ->]. now rewrite Hv. }
  split; [exact HJ|].
  intros s1 b s2 G E.
  destruct (store_grows_fields _ _ G) as (_ & _ & Es & _ & Ev & _).
  assert (HJ1 : length (versions s1) + 1 = length (projects (sel s1)))
    by (now rewrite Es, Ev).
  destruct (backtrack_stack _ _ _ HJ1 E) as [HJ2 Hle].
  split; [exact HJ2|].
  exists (length (versions s1) - length (versions s2)). lia.
Qed.

(** ** The frontier and the selection *)

Lemma edges_of_app (s : solver) (ps qs : list ProjectAtom) (n : ProjectName) :
  edges_of s (ps ++ qs) n = edges_of s ps n ++ edges_of s qs n.
Proof. unfold edges_of. apply flat_map_app. Qed.

Lemma edges_of_single (s : solver) (p : ProjectAtom) (n : ProjectName) :
  edges_of s [p] n = map (mkDependency p) (onName n (declared s p)).
Proof. unfold edges_of. simpl. apply app_nil_r. Qed.

Lemma declared_env (s s' : solver) (atom : ProjectAtom) :
  sm s' = sm s → rp s' = rp s → declared s' atom = declared s atom.
Proof. intros Em Er. unfold declared. now rewrite (getDependenciesOf_env s s'). Qed.

Lemma edges_of_env (s s' : solver) (ps : list ProjectAtom) (n : ProjectName) :
  sm s' = sm s → rp s' = rp s → edges_of s' ps n = edges_of s ps n.
Proof.
  intros Em Er. unfold edges_of. induction ps as [|p ps IH]; [reflexivity|].
  simpl. now rewrite IH, (declared_env s s').
Qed.

Lemma no_root_deps_env (s s' : solver) :
  sm s' = sm s → rp s' = rp s → no_root_deps s → no_root_deps s'.
Proof.
  intros Em Er Hn atom d Hd. rewrite Er. apply (Hn atom).
  now rewrite <- (declared_env s s').
Qed.

Lemma core_inv_env (s s' : solver) :
  sm s' = sm s → rp s' = rp s → sel s' = sel s → unsel s' = unsel s →
  core_inv s → core_inv s'.
Proof.
  intros Em Er Es Eu (I1 & I2 & I3 & I4 & I5 & I6).
  unfold core_inv, edges. rewrite Es, Eu, Er.
  split; [exact I1|]. split; [|split; [|split; [exact I4|split; [exact I5|]]]].
  - intros n. rewrite (edges_of_env s s') by assumption. apply I2.
  - eapply Forall_impl; [exact I3|]. intros p Hp.
    now rewrite (getDependenciesOf_env s s').
  - intros pre p post Hps Hpre. rewrite (edges_of_env s s') by assumption. eauto.
Qed.

Lemma linked_store_grows (vs : list nat) (ps : list ProjectAtom) (s s' : solver) :
  store_grows s s' → linked vs ps s → linked vs ps s'.
Proof.
  intros G L. eapply Forall2_impl; [exact L|].
  intros a p (q & Eq & Hr).
  destruct (store_grows_lookup _ _ _ _ G Eq) as (q' & Eq' & Hr' & _).
  exists q'. split; [exact Eq'|congruence].
Qed.

Lemma linked_queues (vs : list nat) (ps : list ProjectAtom) (s s' : solver) :
  queues s' = queues s → linked vs ps s → linked vs ps s'.
Proof. intros E L. unfold linked. now rewrite E. Qed.

(** A committed name other than the root's has an inbound edge. *)
Lemma committed_has_edge (s : solver) (n : ProjectName) :
  core_inv s → n ∈ names (projects (sel s)) → n ≠ paName (pa (rp s)) →
  length (edges s n) ≠ 0.
Proof.
  intros (_ & I2 & _ & _ & [rest Hr] & I6) Hn Hroot.
  apply list_elem_of_fmap in Hn as (p & -> & Hp).
  apply list_elem_of_split in Hp as (pre & post & Hps).
  destruct pre as [|p0 pre].
  { rewrite Hr in Hps. injection Hps as <- _. contradiction. }
  rewrite I2, Hps, edges_of_app, length_app.
  pose proof (I6 _ _ _ Hps) as H6. specialize (H6 ltac:(discriminate)). lia.
Qed.

Lemma on_frontier (s : solver) (n : ProjectName) :
  core_inv s → n ∈ unsel s →
  length (edges s n) ≠ 0 ∧ n ∉ names (projects (sel s)).
Proof.
  intros (I1 & _) Hn. apply mult_elem_of in Hn. rewrite I1 in Hn.
  unfold ind in Hn. case_decide; [assumption|lia].
Qed.

Lemma onName_nonempty (n : ProjectName) (ds : list ProjectDep) :
  length (onName n ds) ≠ 0 → ∃ d, d ∈ ds ∧ pdName d = n.
Proof.
  intros Hl. destruct (onName n ds) as [|d l] eqn:E; [simpl in Hl; lia|].
  assert (Hd : d ∈ onName n ds) by (rewrite E; left).
  unfold onName in Hd. apply list_elem_of_filter in Hd as [Hd1 Hd2]. eauto.
Qed.

Lemma names_app (ps qs : list ProjectAtom) : names (ps ++ qs) = names ps ++ names qs.
Proof. apply map_app. Qed.

Lemma split_snoc {A : Type} (pre post ps : list A) (p x : A) :
  pre ++ p :: post = ps ++ [x] →
  (post = [] ∧ pre = ps ∧ p = x) ∨ (∃ post', post = post' ++ [x] ∧ ps = pre ++ p :: post').
Proof.
  intros E. destruct post as [|y post _] using rev_ind.
  - left. apply app_inj_tail in E as [-> ->]. auto.
  - right. exists post. rewrite app_comm_cons, app_assoc in E.
    apply app_inj_tail in E as [<- ->]. auto.
Qed.

Lemma core_inv_select (s : solver) (n : ProjectName) (v : Version) (s' : solver) :
  no_root_deps s → core_inv s → n ∈ unsel s →
  selectVersion (mkAtom n v) s = Done s' →
  core_only s s' ∧ core_inv s' ∧
  projects (sel s') = projects (sel s) ++ [mkAtom n v].
Proof.
  intros Hroot HI Hn E.
  destruct (selectVersion_effect _ _ _ E) as (ds & Hds & F & Ep & G & M).
  destruct (core_only_fields _ _ F) as (Em & _ & _ & Er & _).
  destruct (on_frontier s n HI Hn) as [Hlen Hnot].
  pose proof HI as (I1 & I2 & I3 & I4 & [rest Hr] & I6).
  assert (Hdecl : declared s (mkAtom n v) = ds) by (unfold declared; now rewrite Hds).
  split; [exact F|]. split; [|exact Ep].
  split; [|split; [|split; [|split; [|split]]]].
  - intros m. rewrite M, G, Ep, names_app, I1, length_app, length_map.
    cbn [paName names map].
    assert (Hmem : m ∈ names (projects (sel s)) ++ [n] ↔
                   m ∈ names (projects (sel s)) ∨ m = n)
      by (rewrite elem_of_app, list_elem_of_singleton; reflexivity).
    assert (Hfresh : length (edges s m) = 0 → length (onName m ds) ≠ 0 →
                     m ∉ names (projects (sel s))).
    { intros H0 Hc Hin. destruct (onName_nonempty _ _ Hc) as (d & Hd & Hdn).
      destruct (decide (m = paName (pa (rp s)))) as [Hm|Hm].
      - apply (Hroot (mkAtom n v) d); [now rewrite Hdecl|congruence].
      - now apply (committed_has_edge s m HI Hin Hm). }
    destruct (decide (n = m)) as [<-|Hne]; unfold ind; repeat case_decide;
      try lia; exfalso; intuition (try lia; try congruence).
  - intros m. change (edges s' m = edges_of s' (projects (sel s')) m).
    rewrite G, Ep, edges_of_app, edges_of_single, (edges_of_env s s') by assumption.
    rewrite (declared_env s s') by assumption. now rewrite Hdecl, I2.
  - rewrite Ep. apply Forall_app. split.
    + eapply Forall_impl; [exact I3|]. intros p Hp.
      now rewrite (getDependenciesOf_env s s').
    + constructor; [|constructor].
      rewrite (getDependenciesOf_env s s') by assumption. now rewrite Hds.
  - rewrite Ep, names_app. apply NoDup_app. split; [exact I4|]. split.
    + intros x Hx Hx'. apply list_elem_of_singleton in Hx'. subst x. contradiction.
    + apply NoDup_singleton.
  - rewrite Ep, Hr, Er. eexists. reflexivity.
  - intros pre p post Hps Hpre. rewrite Ep in Hps.
    rewrite (edges_of_env s s') by assumption.
    destruct (split_snoc _ _ _ _ _ (eq_sym Hps)) as [(-> & -> & ->)|(post' & -> & Hps')].
    + simpl. now rewrite <- I2.
    + eauto.
Qed.

Lemma core_inv_unselect (s : solver) (ps : list ProjectAtom) (atom : ProjectAtom) :
  core_inv s → projects (sel s) = ps ++ [atom] → ps ≠ [] →
  ∃ s', unselectLast s = Done s' ∧ core_only s s' ∧ core_inv s' ∧
        projects (sel s') = ps ∧ paName atom ∈ unsel s'.
Proof.
  intros HI Hps Hne.
  pose proof HI as (I1 & I2 & I3 & I4 & [rest Hr] & I6).
  assert (Hds : getDependenciesOf s atom = (declared s atom, None)).
  { rewrite Hps in I3. apply Forall_app in I3 as [_ I3].
    apply Forall_inv in I3. cbv beta in I3. unfold declared.
    destruct (getDependenciesOf s atom) as [ds [e|]]; simpl in I3;
      [discriminate|reflexivity]. }
  assert (Hedges : ∀ n, edges s n =
            edges_of s ps n ++ map (mkDependency atom) (onName n (declared s atom))).
  { intros n. now rewrite I2, Hps, edges_of_app, edges_of_single. }
  destruct (unselectLast_spec s ps atom (declared s atom) Hps Hds)
    as (s' & E & F & Ep & G & M).
  { intros n. rewrite Hedges, length_app, length_map. lia. }
  destruct (core_only_fields _ _ F) as (Em & _ & _ & Er & _).
  assert (Hedges' : ∀ n, edges s' n = edges_of s ps n).
  { intros n. rewrite G, Hedges, length_app, length_map.
    replace (length (edges_of s ps n) + length (onName n (declared s atom)) -
             length (onName n (declared s atom)))
      with (length (edges_of s ps n)) by lia.
    apply take_app_length. }
  assert (Hnd : NoDup (names ps) ∧ paName atom ∉ names ps).
  { rewrite Hps, names_app in I4. apply NoDup_app in I4 as (I4a & I4b & _).
    split; [exact I4a|]. intros Hin. apply (I4b _ Hin). simpl. left. }
  assert (H6 : length (edges_of s ps (paName atom)) ≠ 0).
  { apply (I6 ps atom []); assumption. }
  assert (HM : ∀ m, mult (unsel s') m =
                    ind (length (edges s' m) ≠ 0 ∧ m ∉ names ps)).
  { intros m. rewrite M, Hedges', I1, Hedges, Hps, names_app, length_app, length_map.
    cbn [names map].
    assert (Hmem : m ∈ names ps ++ [paName atom] ↔ m ∈ names ps ∨ m = paName atom)
      by (rewrite elem_of_app, list_elem_of_singleton; reflexivity).
    destruct Hnd as [_ Hnot].
    destruct (decide (paName atom = m)) as [<-|Hna]; unfold ind; repeat case_decide;
      try lia; exfalso; intuition (try lia; try congruence). }
  exists s'. split; [exact E|]. split; [exact F|]. split; [|split; [exact Ep|]].
  - split; [|split; [|split; [|split; [|split]]]].
    + intros m. rewrite Ep. apply HM.
    + intros m. rewrite Ep, (edges_of_env s s') by assumption. apply Hedges'.
    + rewrite Ep. rewrite Hps in I3. apply Forall_app in I3 as [I3 _].
      eapply Forall_impl; [exact I3|]. intros p Hp.
      now rewrite (getDependenciesOf_env s s').
    + rewrite Ep. apply Hnd.
    + rewrite Ep, Er. rewrite Hps in Hr. destruct ps as [|p0 ps]; [contradiction|].
      injection Hr as -> _. eexists. reflexivity.
    + intros pre p post Hpp Hpre. rewrite Ep in Hpp.
      rewrite (edges_of_env s s') by assumption.
      apply (I6 pre p (post ++ [atom])); [|assumption].
      rewrite Hps, Hpp, <- app_assoc. reflexivity.
  - apply mult_elem_of. rewrite HM, Hedges'. unfold ind.
    rewrite decide_True; [lia|]. split; [exact H6|apply Hnd].
Qed.

Lemma linked_snoc_inv (vs : list nat) (a : nat) (ps : list ProjectAtom) (s : solver) :
  linked (vs ++ [a]) ps s →
  ∃ ps' p q, ps = ps' ++ [p] ∧ linked vs ps' s ∧
             queues s !! a = Some q ∧ ref q = paName p.
Proof.
  intros L. apply Forall2_app_inv_l in L as (ps' & k & L1 & L2 & ->).
  apply Forall2_cons_inv_l in L2 as (p & k' & (q & Eq & Hr) & L2 & ->).
  apply Forall2_nil_inv_l in L2 as ->. exists ps', p, q. auto.
Qed.

Lemma frontier_inv_top (s : solver) (a : nat) :
  frontier_inv s → last (versions s) = Some a →
  ∃ vs ps p q, versions s = vs ++ [a] ∧ projects (sel s) = ps ++ [p] ∧ ps ≠ [] ∧
               linked vs (tail ps) s ∧ queues s !! a = Some q ∧ ref q = paName p.
Proof.
  intros (_ & HI & HL) El. apply last_Some in El as [vs Ev]. rewrite Ev in HL.
  destruct (linked_snoc_inv _ _ _ _ HL) as (ps' & p & q & Et & L & Eq & Hr).
  destruct HI as (_ & _ & _ & _ & [rest Hrest] & _).
  rewrite Hrest in Et. simpl in Et. subst rest.
  exists vs, (pa (rp s) :: ps'), p, q. rewrite Hrest. simpl. repeat split; auto.
Qed.

Lemma frontier_inv_discard (s : solver) (a : nat) (s' : solver) :
  frontier_inv s → last (versions s) = Some a →
  unselectLast (set_versions (removelast (versions s)) s) = Done s' →
  frontier_inv s'.
Proof.
  intros HJ El Eu.
  destruct (frontier_inv_top _ _ HJ El) as (vs & ps & p & q & Ev & Ep & Hne & L & _).
  destruct HJ as (Hroot & HI & _).
  set (s0 := set_versions (removelast (versions s)) s) in *.
  assert (HI0 : core_inv s0) by (now apply (core_inv_env s s0)).
  destruct (core_inv_unselect s0 ps p HI0 Ep Hne) as (s'' & E & F & HI' & Ep' & _).
  assert (s'' = s') as -> by congruence.
  destruct (core_only_fields _ _ F) as (Em & _ & Evs & Er & _ & _ & Eq).
  split; [|split; [exact HI'|]].
  - now apply (no_root_deps_env s s').
  - rewrite Evs, Ep'. unfold s0. simpl. rewrite Ev, removelast_last.
    now apply (linked_queues _ _ s s').
Qed.

Lemma frontier_inv_retract (s : solver) (a : nat) (s' : solver) :
  frontier_inv s → last (versions s) = Some a → unselectLast s = Done s' →
  retracted_inv a s'.
Proof.
  intros HJ El Eu.
  destruct (frontier_inv_top _ _ HJ El) as (vs & ps & p & q & Ev & Ep & Hne & L & Eq & Hr).
  destruct HJ as (Hroot & HI & _).
  destruct (core_inv_unselect s ps p HI Ep Hne) as (s'' & E & F & HI' & Ep' & Hin).
  assert (s'' = s') as -> by congruence.
  destruct (core_only_fields _ _ F) as (Em & _ & Evs & Er & _ & _ & Eqs).
  split; [|split; [exact HI'|]].
  - now apply (no_root_deps_env s s').
  - exists vs, q. rewrite Evs, Ep', Eqs. repeat split; auto.
    + now apply (linked_queues _ _ s s').
    + now rewrite Hr.
Qed.

Lemma retracted_inv_store (a : nat) (s s' : solver) :
  retracted_inv a s → store_grows s s' → retracted_inv a s'.
Proof.
  intros (Hroot & HI & vs & q & Ev & L & Eq & Hin) G.
  destruct (store_grows_fields _ _ G) as (Em & _ & Es & Eu & Evs & Er & _).
  destruct (store_grows_lookup _ _ _ _ G Eq) as (q' & Eq' & Hr' & _).
  split; [|split].
  - now apply (no_root_deps_env s s').
  - now apply (core_inv_env s s').
  - exists vs, q'. rewrite Evs, Es, Eu, Hr'. repeat split; auto.
    now apply (linked_store_grows _ _ s s').
Qed.

Lemma tail_snoc {A : Type} (l : list A) (x : A) : l ≠ [] → tail (l ++ [x]) = tail l ++ [x].
Proof. destruct l; [contradiction|reflexivity]. Qed.

Lemma core_inv_nonempty (s : solver) : core_inv s → projects (sel s) ≠ [].
Proof. intros (_ & _ & _ & _ & [rest ->] & _). discriminate. Qed.

Lemma frontier_inv_push (s : solver) (vs : list nat) (a : nat) (q : versionQueue)
    (s' : solver) :
  no_root_deps s → core_inv s → linked vs (tail (projects (sel s))) s →
  queues s !! a = Some q → ref q ∈ unsel s →
  selectVersion (mkAtom (ref q) (current q)) s = Done s' →
  no_root_deps s' ∧ core_inv s' ∧ versions s' = versions s ∧
  linked (vs ++ [a]) (tail (projects (sel s'))) s'.
Proof.
  intros Hroot HI L Eq Hin E.
  destruct (core_inv_select _ _ _ _ Hroot HI Hin E) as (F & HI' & Ep).
  destruct (core_only_fields _ _ F) as (Em & _ & Evs & Er & _ & _ & Eqs).
  split; [now apply (no_root_deps_env s s')|]. split; [exact HI'|].
  split; [exact Evs|].
  rewrite Ep, tail_snoc by (now apply core_inv_nonempty).
  apply Forall2_app.
  - now apply (linked_queues _ _ s s').
  - constructor; [|constructor]. exists q. rewrite Eqs. auto.
Qed.

Lemma frontier_inv_step (s : solver)
    (r : option (list ProjectAtom * option error)) (s' : solver) :
  frontier_inv s → solve_step nilpaRevision s = Done (r, s') → frontier_inv s'.
Proof.
  intros HJ E.
  apply (solve_step_invariant frontier_inv retracted_inv) with (s := s) (r := r);
    try assumption.
  - apply frontier_inv_discard.
  - apply frontier_inv_retract.
  - apply retracted_inv_store.
  - intros a s1 q0 s2 (Hroot & HI & vs & q & Ev & L & Eq & Hin) Eq0 Esel.
    assert (q0 = q) as -> by congruence.
    destruct (frontier_inv_push _ _ _ _ _ Hroot HI L Eq Hin Esel)
      as (Hroot' & HI' & Evs & L').
    split; [exact Hroot'|]. split; [exact HI'|]. now rewrite Evs, Ev.
  - intros a s1 (Hroot & HI & vs & q & Ev & L & Eq & Hin).
    split; [exact Hroot|]. split; [now apply (core_inv_env s1)|].
    simpl. rewrite Ev, removelast_last. exact L.
  - intros s1 z (Hroot & HI & L).
    split; [exact Hroot|]. split; [now apply (core_inv_env s1)|exact L].
  - intros s1 s2 (Hroot & HI & L) G.
    destruct (store_grows_fields _ _ G) as (Em & _ & Es & Eu & Evs & Er & _).
    split; [now apply (no_root_deps_env s1 s2)|].
    split; [now apply (core_inv_env s1 s2)|].
    rewrite Evs, Es. now apply (linked_store_grows _ _ s1 s2).
  - intros s1 a q s2 (Hroot & HI & L) [l Hl] Eq Esel.
    assert (Hin : ref q ∈ unsel s1) by (rewrite Hl; left).
    destruct (frontier_inv_push _ _ _ _ _ Hroot HI L Eq Hin Esel)
      as (Hroot' & HI' & Evs & L').
    split; [exact Hroot'|]. split; [now apply (core_inv_env s2)|].
    simpl. rewrite Evs. exact L'.
Qed.

Lemma Solve_prepare_frontier_inv (root : ProjectInfo) (toUpgrade : list ProjectName)
    (s s0 : solver) :
  versions s = [] → Solve_prepare root toUpgrade s = Done s0 →
  no_root_deps s0 → frontier_inv s0.
Proof.
  intros Hv E Hroot. unfold Solve_prepare in E.
  match type of E with selectVersion _ ?x = _ => set (sP := x) in * end.
  assert (HrP : rp sP = root) by (unfold sP; now destruct (Lock root)).
  assert (HvP : versions sP = []) by (unfold sP; simpl; now destruct (Lock root)).
  assert (HeP : ∀ n, edges sP n = []) by reflexivity.
  assert (HuP : unsel sP = []) by reflexivity.
  assert (HpP : projects (sel sP) = []) by reflexivity.
  destruct (selectVersion_effect _ _ _ E) as (ds & Hds & F & Ep & G & M).
  destruct (core_only_fields _ _ F) as (Em & _ & Evs & Er & _).
  rewrite HpP, app_nil_l in Ep.
  assert (Hdecl : declared s0 (pa (rp sP)) = ds).
  { rewrite (declared_env sP s0) by assumption. unfold declared. now rewrite Hds. }
  split; [exact Hroot|]. split.
  - split; [|split; [|split; [|split; [|split]]]].
    + intros m. rewrite M, G, HeP, HuP, Ep, length_app, length_map. simpl.
      assert (Hfresh : length (onName m ds) ≠ 0 → m ≠ paName (pa (rp sP))).
      { intros Hc. destruct (onName_nonempty _ _ Hc) as (d & Hd & <-).
        rewrite <- Er. apply (Hroot (pa (rp sP)) d). now rewrite Hdecl. }
      assert (Hmem : m ∈ [paName (pa (rp sP))] ↔ m = paName (pa (rp sP)))
        by apply list_elem_of_singleton.
      unfold ind. repeat case_decide; try lia; exfalso;
        intuition (try lia; try congruence).
    + intros m. change (edges s0 m = edges_of s0 (projects (sel s0)) m).
      rewrite G, HeP, Ep, edges_of_single, Hdecl. reflexivity.
    + rewrite Ep. constructor; [|constructor].
      rewrite (getDependenciesOf_env sP s0) by assumption. now rewrite Hds.
    + rewrite Ep. apply NoDup_singleton.
    + rewrite Ep, Er. exists []. reflexivity.
    + intros pre p post Hps Hpre. rewrite Ep in Hps.
      destruct pre as [|x [|y pre]]; [contradiction|discriminate|discriminate].
  - rewrite Evs, HvP, Ep. constructor.
Qed.

(** C5, as amended. In a solve that starts with an empty stack of version
    queues and in which no atom declares a dependency on the root, every
    state between driver steps has on its frontier exactly the names that
    have at least one inbound edge recorded in [deps] and are not the name of
    a committed atom, each of them once.  (A key of [deps] may be left with
    an empty list of edges; such a name is not on the frontier.) *)
Theorem frontier_holds_uncommitted_targets (root : ProjectInfo)
    (toUpgrade : list ProjectName) (s s0 st : solver) :
  versions s = [] →
  Solve_prepare root toUpgrade s = Done s0 →
  no_root_deps s0 →
  between_steps s0 st →
  (∀ n, n ∈ unsel st ↔
        getDependenciesOn n (sel st) ≠ [] ∧ n ∉ map paName (projects (sel st))) ∧
  NoDup (unsel st).
Proof.
  intros Hv Hprep Hroot Hb.
  assert (HJ : frontier_inv st).
  { apply (between_steps_invariant frontier_inv s0 st);
      [apply frontier_inv_step| |exact Hb].
    eapply Solve_prepare_frontier_inv; eauto. }
  destruct HJ as (_ & (I1 & _) & _). split.
  - intros n. rewrite mult_elem_of, I1. unfold ind, edges, names.
    case_decide as Hc.
    + split; [intros _|lia]. destruct Hc as [Hl Hn]. split; [|exact Hn].
      intros E0. rewrite E0 in Hl. now apply Hl.
    + split; [lia|]. intros [Hl Hn]. exfalso. apply Hc. split; [|exact Hn].
      destruct (getDependenciesOn n (sel st)); [contradiction|discriminate].
  - apply NoDup_ListNoDup, (NoDup_count_occ String.string_dec). intros n.
    change (mult (unsel st) n ≤ 1). rewrite I1. unfold ind. case_decide; lia.
Qed.

(** ** What a solve keeps *)

Lemma same_env_refl (s : solver) : same_env s s.
Proof. repeat split. Qed.

Lemma same_env_trans (s1 s2 s3 : solver) :
  same_env s1 s2 → same_env s2 s3 → same_env s1 s3.
Proof. unfold same_env. intros (-> & -> & -> & ->) (-> & -> & -> & ->). auto. Qed.

Lemma core_only_same_env (s s' : solver) : core_only s s' → same_env s s'.
Proof.
  intros F. destruct (core_only_fields _ _ F) as (? & ? & ? & ? & ? & ?).
  repeat split; assumption.
Qed.

Lemma store_grows_same_env (s s' : solver) : store_grows s s' → same_env s s'.
Proof.
  intros G. destruct (store_grows_fields _ _ G) as (? & ? & ? & ? & ? & ? & ? & ?).
  repeat split; assumption.
Qed.

Lemma solve_step_same_env (s : solver)
    (r : option (list ProjectAtom * option error)) (s' : solver) :
  solve_step nilpaRevision s = Done (r, s') → same_env s s'.
Proof.
  intros E.
  apply (solve_step_invariant (same_env s) (fun _ => same_env s)) with (s := s) (r := r);
    try assumption.
  - intros s1 a s2 HJ _ Eu. eapply same_env_trans; [exact HJ|].
    destruct (unselectLast_Done _ _ Eu) as [F _].
    apply core_only_same_env in F. exact F.
  - intros s1 a s2 HJ _ Eu. eapply same_env_trans; [exact HJ|].
    destruct (unselectLast_Done _ _ Eu) as [F _]. now apply core_only_same_env.
  - intros a s1 s2 HJ G. eapply same_env_trans; [exact HJ|].
    now apply store_grows_same_env.
  - intros a s1 q s2 HJ _ Es. eapply same_env_trans; [exact HJ|].
    destruct (selectVersion_effect _ _ _ Es) as (ds & _ & F & _).
    now apply core_only_same_env.
  - intros a s1 HJ. exact HJ.
  - intros s1 z HJ. exact HJ.
  - intros s1 s2 HJ G. eapply same_env_trans; [exact HJ|].
    now apply store_grows_same_env.
  - intros s1 a q s2 HJ _ _ Es. eapply same_env_trans; [exact HJ|].
    destruct (selectVersion_effect _ _ _ Es) as (ds & _ & F & _).
    apply core_only_same_env in F. exact F.
  - apply same_env_refl.
Qed.

Lemma solve_same_env (fuel : nat) (s : solver) (projs : list ProjectAtom)
    (err : option error) (s' : solver) :
  solve nilpaRevision fuel s = Done (projs, err, s') → same_env s s'.
Proof.
  revert s. induction fuel as [|fuel IH]; intros s E; [discriminate|].
  cbn [solve] in E. apply bind_Done in E as ([r s1] & Es & E).
  pose proof (solve_step_same_env _ _ _ Es) as G.
  destruct r as [[p e]|].
  - injection E as _ _ <-. exact G.
  - eapply same_env_trans; [exact G|]. now apply IH.
Qed.

Lemma upgrade_into_union (l : gset ProjectName) (toUpgrade : list ProjectName) :
  upgrade_into l toUpgrade = l ∪ list_to_set toUpgrade.
Proof.
  unfold upgrade_into. revert l.
  induction toUpgrade as [|v vs IH]; intros l; simpl.
  - now rewrite union_empty_r_L.
  - rewrite IH, (union_comm_L {[v]} l). symmetry. apply (assoc_L (∪)).
Qed.

Lemma lock_into_dom (m : gmap ProjectName LockedProject) (root : ProjectInfo) :
  dom m ⊆ dom (lock_into m root).
Proof.
  unfold lock_into. generalize (default [] (Lock root)) as l. intros l. revert m.
  induction l as [|lp l IH]; intros m; simpl; [reflexivity|].
  etransitivity; [|apply IH]. rewrite dom_insert. apply union_subseteq_r.
Qed.

Lemma Solve_prepare_fields (root : ProjectInfo) (toUpgrade : list ProjectName)
    (s s0 : solver) :
  Solve_prepare root toUpgrade s = Done s0 →
  sm s0 = sm s ∧ rp s0 = root ∧ versions s0 = versions s ∧
  attempts s0 = attempts s ∧ queues s0 = queues s ∧
  latest s0 = upgrade_into (latest s) toUpgrade ∧
  rlm s0 = lock_into (rlm s) root.
Proof.
  unfold Solve_prepare. intros E.
  destruct (selectVersion_effect _ _ _ E) as (ds & _ & F & _).
  destruct (core_only_fields _ _ F) as (-> & -> & -> & -> & -> & -> & ->).
  unfold lock_into. destruct (Lock root); repeat split.
Qed.

(** C10. [Solve] sets up the selection and the frontier afresh and nothing
    else: the state in which its loop starts has the stack of version queues
    and the attempts counter of the solver it was called on, its upgrade set
    with the names of [toUpgrade] added and its lock map with the projects of
    the root's lock added, whatever selection and frontier that solver had;
    the loop itself changes neither the lock map nor the upgrade set.  So a
    second call on the same solver starts from what the first call left in
    these four fields, and they are all empty only on the solver that
    [NewSolver] makes. *)
Theorem Solve_keeps_accumulated_fields :
  (∀ m, rlm (NewSolver m) = ∅ ∧ latest (NewSolver m) = ∅ ∧
        versions (NewSolver m) = [] ∧ attempts (NewSolver m) = 0%Z) ∧
  (∀ root toUpgrade s s0,
     Solve_prepare root toUpgrade s = Done s0 →
     versions s0 = versions s ∧ attempts s0 = attempts s ∧
     latest s0 = latest s ∪ list_to_set toUpgrade ∧
     rlm s0 = lock_into (rlm s) root ∧ dom (rlm s) ⊆ dom (rlm s0)) ∧
  (∀ root toUpgrade s x y,
     Solve_prepare root toUpgrade (set_sel x (set_unsel y s)) =
     Solve_prepare root toUpgrade s) ∧
  (∀ fuel root toUpgrade s res s1,
     Solve nilpaRevision fuel root toUpgrade s = Done (res, s1) →
     latest s1 = latest s ∪ list_to_set toUpgrade ∧
     rlm s1 = lock_into (rlm s) root).
Proof.
  split; [|split; [|split]].
  - intros m. repeat split.
  - intros root toUpgrade s s0 E.
    destruct (Solve_prepare_fields _ _ _ _ E) as (_ & _ & Ev & Ea & _ & El & Er).
    rewrite Ev, Ea, El, Er, upgrade_into_union. repeat split. apply lock_into_dom.
  - intros root toUpgrade s x y. unfold Solve_prepare.
    destruct (Lock root); reflexivity.
  - intros fuel root toUpgrade s res s1 E. unfold Solve in E.
    apply bind_Done in E as (s0 & E0 & E).
    apply bind_Done in E as ([[projs err] s'] & Es & E). injection E as _ <-.
    destruct (Solve_prepare_fields _ _ _ _ E0) as (_ & _ & _ & _ & _ & El & Er).
    destruct (solve_same_env _ _ _ _ _ Es) as (_ & _ & Er' & El').
    rewrite El', Er', El, Er, upgrade_into_union. split; reflexivity.
Qed.

(** ** Determinism *)

Lemma same_answers_eq (m1 m2 : SourceManager) : same_answers m1 m2 → m1 = m2.
Proof.
  intros (H1 & H2 & H3 & H4). destruct m1, m2. simpl in *.
  f_equal; apply functional_extensionality; assumption.
Qed.

Lemma newVersionQueue_draw (r2 : Version) (name : ProjectName)
    (lockv1 lockv2 : ProjectAtom) (m : SourceManager) :
  (lockv1 = nilpa nilpaRevision ∧ lockv2 = nilpa r2) ∨
  (lockv1 = lockv2 ∧ paName lockv1 ≠ ""%string) →
  newVersionQueue nilpaRevision name lockv1 m = newVersionQueue r2 name lockv2 m.
Proof.
  intros [[-> ->]|[<- Hn]]; unfold newVersionQueue.
  - now rewrite !decide_True by reflexivity.
  - rewrite !decide_False; [reflexivity| |]; intros ->; now apply Hn.
Qed.

Lemma getLockVersionIfValid_draw (r2 : Version) (name : ProjectName) (s : solver) :
  lock_named s →
  (getLockVersionIfValid nilpaRevision name s = nilpa nilpaRevision ∧
   getLockVersionIfValid r2 name s = nilpa r2) ∨
  (getLockVersionIfValid nilpaRevision name s = getLockVersionIfValid r2 name s ∧
   paName (getLockVersionIfValid nilpaRevision name s) ≠ ""%string).
Proof.
  intros Hl. unfold getLockVersionIfValid, lockVersionFromLock.
  destruct (bool_decide (name ∈ latest s)).
  - destruct (RepoExists (sm s) name) as [[|] e]; cbn [negb]; [|now left].
    destruct (rlm s !! name) as [lp|] eqn:El; [|now left].
    destruct (negb (Matches _ _)); [now left|]. right. split; [reflexivity|].
    simpl. eapply Hl; eauto.
  - destruct (rlm s !! name) as [lp|] eqn:El; [|now left].
    destruct (negb (Matches _ _)); [now left|]. right. split; [reflexivity|].
    simpl. eapply Hl; eauto.
Qed.

Lemma createVersionQueue_draw (r2 : Version) (name : ProjectName) (s : solver) :
  lock_named s →
  createVersionQueue nilpaRevision name s = createVersionQueue r2 name s.
Proof.
  intros Hl. unfold createVersionQueue, newVersionQueue_at.
  case_decide.
  - rewrite (newVersionQueue_draw r2 name (nilpa nilpaRevision) (nilpa r2));
      [reflexivity|now left].
  - rewrite (newVersionQueue_draw r2 name
               (getLockVersionIfValid nilpaRevision name s)
               (getLockVersionIfValid r2 name s));
      [reflexivity|now apply getLockVersionIfValid_draw].
Qed.

Lemma solve_step_draw (r2 : Version) (s : solver) :
  lock_named s → solve_step nilpaRevision s = solve_step r2 s.
Proof.
  intros Hl. unfold solve_step. destruct (nextUnselected s) as [name has].
  destruct (negb has); [reflexivity|].
  now rewrite (createVersionQueue_draw r2).
Qed.

Lemma lock_named_env (s s' : solver) : same_env s s' → lock_named s → lock_named s'.
Proof. intros (_ & _ & Er & _) Hl k lp. rewrite Er. apply Hl. Qed.

Lemma solve_draw (r2 : Version) (fuel : nat) (s : solver) :
  lock_named s → solve nilpaRevision fuel s = solve r2 fuel s.
Proof.
  revert s. induction fuel as [|fuel IH]; intros s Hl; [reflexivity|].
  cbn [solve]. rewrite <- (solve_step_draw r2) by assumption.
  destruct (solve_step nilpaRevision s) as [[r s1]| |] eqn:Es; [|reflexivity..].
  cbn [mbind outcome_bind]. destruct r as [[projs err]|]; [reflexivity|].
  apply IH. eapply lock_named_env; [|exact Hl]. eapply solve_step_same_env; eauto.
Qed.

Lemma lock_into_lookup (m : gmap ProjectName LockedProject) (root : ProjectInfo)
    (k : ProjectName) (lp : LockedProject) :
  lock_into m root !! k = Some lp →
  m !! k = Some lp ∨ lp ∈ default [] (Lock root).
Proof.
  unfold lock_into. generalize (default [] (Lock root)) as l. intros l. revert m.
  induction l as [|x l IH]; intros m E; simpl in E; [now left|].
  destruct (IH _ E) as [E'|Hin]; [|right; now right].
  rewrite lookup_insert in E'. case_decide.
  - injection E' as ->. right. left.
  - now left.
Qed.

(** C9. Two solves of the same root and [toUpgrade] on solvers made by
    [NewSolver] over source managers that give identical answers to
    identical requests end in the same outcome: the same [Projects] in the
    same order and the same [SolveFailure] (and the same final state), for
    as long as each is run.  This holds for two runs that share the
    placeholder revision drawn at start-up, and for two runs with different
    draws whenever no project of the root's lock has the empty name. *)
Theorem Solve_deterministic (m1 m2 : SourceManager) (r2 : Version) (fuel : nat)
    (root : ProjectInfo) (toUpgrade : list ProjectName) :
  same_answers m1 m2 →
  nilpaRevision = r2 ∨ (∀ lp, lp ∈ default [] (Lock root) → lpName lp ≠ ""%string) →
  Solve nilpaRevision fuel root toUpgrade (NewSolver m1) =
  Solve r2 fuel root toUpgrade (NewSolver m2).
Proof.
  intros Hm Hr. apply same_answers_eq in Hm as <-.
  destruct Hr as [<-|Hnamed]; [reflexivity|].
  unfold Solve.
  destruct (Solve_prepare root toUpgrade (NewSolver m1)) as [s0| |] eqn:E0;
    [|reflexivity..].
  cbn [mbind outcome_bind]. rewrite (solve_draw r2); [reflexivity|].
  destruct (Solve_prepare_fields _ _ _ _ E0) as (_ & _ & _ & _ & _ & _ & Er).
  intros k lp Hk. rewrite Er in Hk.
  destruct (lock_into_lookup _ _ _ _ Hk) as [He|Hin]; [|now apply Hnamed].
  simpl in He. rewrite lookup_empty in He. discriminate.
Qed.

(** ** The loops of the driver end *)

Lemma heap_Push_not_Timeout (x : ProjectName) (s : solver) : heap_Push x s ≠ Timeout.
Proof. destruct (heap_Push_shuffles x s) as (s' & -> & _). discriminate. Qed.

Lemma selectVersion_not_Timeout (atom : ProjectAtom) (s : solver) :
  selectVersion atom s ≠ Timeout.
Proof.
  destruct (getDependenciesOf s atom) as [ds [e|]] eqn:Hds.
  - unfold selectVersion.
    set (s0 := set_projects _ (set_unsel _ s)).
    rewrite (getDependenciesOf_env s s0) by reflexivity. rewrite Hds. discriminate.
  - destruct (selectVersion_spec atom s ds Hds) as (s' & -> & _). discriminate.
Qed.

Lemma unselectLast_not_Timeout (s : solver) : unselectLast s ≠ Timeout.
Proof.
  unfold unselectLast. destruct (last (projects (sel s))) as [atom|]; [|discriminate].
  apply bind_not_Timeout; [apply heap_Push_not_Timeout|].
  intros s1 _. destruct (getDependenciesOf s1 atom) as [ds [e|]]; [discriminate|].
  apply foldM_not_Timeout. intros s2 d. unfold unselectLast_dep.
  repeat case_decide; discriminate.
Qed.

Lemma backtrack_search_versions (n : nat) (s : solver) (b : bool) (s' : solver) :
  backtrack_search n s = Done (b, s') → length (versions s') ≤ length (versions s).
Proof.
  revert s. induction n as [|n IH]; intros s E; [discriminate|].
  cbn [backtrack_search] in E.
  destruct (last (versions s)) as [a|] eqn:El.
  - apply bind_Done in E as (q & _ & E). destruct (failed q).
    + injection E as _ <-. reflexivity.
    + apply bind_Done in E as (s1 & Eu & E). apply IH in E.
      destruct (unselectLast_Done _ _ Eu) as [F _].
      destruct (core_only_fields _ _ F) as (_ & _ & Ev & _).
      rewrite Ev in E. simpl in E. rewrite length_removelast in E. lia.
  - injection E as _ <-. reflexivity.
Qed.

Lemma backtrack_search_not_Timeout (n : nat) (s : solver) :
  length (versions s) < n → backtrack_search n s ≠ Timeout.
Proof.
  revert s. induction n as [|n IH]; intros s Hn; [lia|].
  cbn [backtrack_search].
  destruct (last (versions s)) as [a|] eqn:El; [|discriminate].
  apply bind_not_Timeout; [apply deref_not_Timeout|].
  intros q _. destruct (failed q); [discriminate|].
  apply bind_not_Timeout; [apply unselectLast_not_Timeout|].
  intros s1 Eu. apply IH.
  destruct (unselectLast_Done _ _ Eu) as [F _].
  destruct (core_only_fields _ _ F) as (_ & _ & Ev & _).
  rewrite Ev. simpl. apply last_length in El. lia.
Qed.

Lemma backtrack_loop_not_Timeout (n : nat) (s : solver) :
  length (versions s) < n → backtrack_loop n s ≠ Timeout.
Proof.
  revert s. induction n as [|n IH]; intros s Hn; [lia|].
  cbn [backtrack_loop].
  apply bind_not_Timeout; [apply backtrack_search_not_Timeout; lia|].
  intros [marked s1] Es. apply backtrack_search_versions in Es.
  destruct marked; cbn [negb]; [|discriminate].
  destruct (last (versions s1)) as [a|] eqn:El; [|discriminate].
  apply last_length in El.
  apply bind_not_Timeout; [apply unselectLast_not_Timeout|].
  intros s2 Eu.
  destruct (unselectLast_Done _ _ Eu) as [F _].
  destruct (core_only_fields _ _ F) as (_ & _ & Ev & _).
  apply bind_not_Timeout; [apply deref_not_Timeout|].
  intros q _. destruct (advance None (sm s2) q) as [q' aerr].
  destruct (bool_decide (aerr = None) && negb (isExhausted q')).
  - apply bind_not_Timeout; [apply findValidVersion_not_Timeout|].
    intros [err s4] Ef.
    destruct (store_grows_fields _ _ (findValidVersion_store_grows _ _ _ _ Ef))
      as (_ & _ & _ & _ & Ev4 & _).
    destruct err as [e|].
    + apply IH. simpl. rewrite length_removelast, Ev4. simpl. rewrite Ev. lia.
    + apply bind_not_Timeout; [apply deref_not_Timeout|].
      intros q4 _. apply bind_not_Timeout; [apply selectVersion_not_Timeout|].
      discriminate.
  - apply IH. simpl. rewrite length_removelast, Ev. lia.
Qed.

Lemma backtrack_not_Timeout (s : solver) : backtrack s ≠ Timeout.
Proof.
  unfold backtrack. case_decide; [discriminate|].
  apply bind_not_Timeout; [apply backtrack_loop_not_Timeout; lia|].
  intros [ok s1] _. destruct ok; cbn [negb]; [|discriminate].
  case_decide; discriminate.
Qed.

Lemma createVersionQueue_not_Timeout (name : ProjectName) (s : solver) :
  createVersionQueue nilpaRevision name s ≠ Timeout.
Proof.
  unfold createVersionQueue. case_decide; [discriminate|].
  destruct (RepoExists (sm s) name) as [ex [err|]]; [discriminate|].
  destruct (if ex then (true, None) else VendorCodeExists (sm s) name)
    as [[|] [err|]]; try discriminate.
  destruct (newVersionQueue_at _ _ _ _) as [[[a|] [e|]] s0]; try discriminate.
  apply bind_not_Timeout; [apply findValidVersion_not_Timeout|].
  intros [err s1] _. discriminate.
Qed.

(** A round of the loop of [solve] needs no fuel: only the number of rounds
    is unbounded. *)
Lemma solve_step_not_Timeout (s : solver) : solve_step nilpaRevision s ≠ Timeout.
Proof.
  unfold solve_step. destruct (nextUnselected s) as [name has].
  destruct (negb has); [discriminate|].
  apply bind_not_Timeout; [apply createVersionQueue_not_Timeout|].
  intros [[queue err] s1] _. destruct err as [e|].
  - apply bind_not_Timeout; [apply backtrack_not_Timeout|].
    intros [ok s2] _. destruct ok; discriminate.
  - destruct queue as [a|]; [|discriminate].
    apply bind_not_Timeout; [apply deref_not_Timeout|].
    intros q _. case_decide; [discriminate|].
    apply bind_not_Timeout; [apply selectVersion_not_Timeout|]. discriminate.
Qed.

(** ** [getLockVersionIfValid] *)

(** For a project marked for upgrade the source keeps the locked version when
    the project exists upstream and drops it when it does not. *)
Lemma getLockVersionIfValid_marked (name : ProjectName) (s : solver) :
  name ∈ latest s →
  getLockVersionIfValid nilpaRevision name s =
  if (RepoExists (sm s) name).1 then lockVersionFromLock nilpaRevision name s
  else nilpa nilpaRevision.
Proof.
  intros Hin. unfold getLockVersionIfValid. rewrite bool_decide_eq_true_2 by assumption.
  destruct (RepoExists (sm s) name) as [[|] e]; reflexivity.
Qed.

Lemma getLockVersionIfValid_unmarked (name : ProjectName) (s : solver) :
  name ∉ latest s →
  getLockVersionIfValid nilpaRevision name s = lockVersionFromLock nilpaRevision name s.
Proof.
  intros Hin. unfold getLockVersionIfValid. now rewrite bool_decide_eq_false_2.
Qed.

Lemma rounds_loop_head (n : nat) (s0 s st : solver) :
  loop_head s0 s → rounds nilpaRevision n s = Some st →
  loop_head s0 st.
Proof.
  revert s. induction n as [|n IH]; intros s Hs E; cbn [rounds] in E.
  - now injection E as <-.
  - destruct (solve_step nilpaRevision s) as [[[r|] s']| |] eqn:Es; try discriminate.
    eapply IH; [|exact E]. eapply loop_head_next; eauto.
Qed.

End Properties.

(** * The properties on concrete solves *)

Section Examples.
#[local] Existing Instance demoPrimitives.
Import Demo.
Local Open Scope string_scope.

(** ** The source manager of a table *)

Lemma Done_inj {A : Type} (a b : A) : Done a = Done b → a = b.
Proof. intros E. exact (f_equal (fun o => match o with Done x => x | _ => a end) E). Qed.

Lemma done_value {A : Type} (d : A) (o : outcome A) :
  done o = true → o = Done (value d o).
Proof. destruct o; [reflexivity|discriminate..]. Qed.

Lemma done_get (o : outcome solver) : done o = true → o = Done (get o).
Proof. destruct o; [reflexivity|discriminate..]. Qed.

Lemma runs_after (n : nat) (s : solver) :
  runs n s = true → rounds draw n s = Some (after n s).
Proof. unfold runs, after. destruct (rounds draw n s); [reflexivity|discriminate]. Qed.

Lemma runs_loop_head (n : nat) (s : solver) :
  runs n s = true → loop_head draw s (after n s).
Proof.
  intros E. apply (rounds_loop_head draw n s s); [constructor|now apply runs_after].
Qed.

Lemma Solve_result (o : outcome (Result * solver)) (r : Result) :
  match o with Done (r', _) => Some r' | _ => None end = Some r →
  ∃ s, o = Done (r, s).
Proof. destruct o as [[r' s]| |]; intros E; [|discriminate..]. injection E as ->. eauto. Qed.

Lemma find_elem_of {A : Type} (f : A → bool) (l : list A) (x : A) :
  List.find f l = Some x → x ∈ l.
Proof. intros E. apply list_elem_of_In. eapply find_some, E. Qed.

Lemma manager_declared (t : table) (s : solver) (atom : ProjectAtom) (d : ProjectDep) :
  sm s = manager t → d ∈ declared s atom → d ∈ table_deps t.
Proof.
  intros Em. unfold declared, getDependenciesOf. rewrite Em. cbn [GetProjectInfo manager].
  destruct (declaredIn t atom) as [ds|] eqn:Ed; cbn [fst snd].
  2:{ intros Hd. inversion Hd. }
  intros Hd.
  assert (Hds : d ∈ ds).
  { cbn [GetDependencies GetDevDependencies] in Hd.
    case_decide; [rewrite app_nil_r in Hd|]; exact Hd. }
  unfold declaredIn, lookupProject in Ed.
  destruct (List.find (fun e => bool_decide (e.1 = paName atom)) t) as [e|] eqn:Ee;
    [|discriminate].
  cbn [fmap option_fmap option_map mbind option_bind snd] in Ed.
  destruct (List.find (fun e0 => bool_decide (e0.1 = paVersion atom)) e.2) as [v|] eqn:Ev;
    [|discriminate].
  injection Ed as <-.
  unfold table_deps. apply list_elem_of_bind. exists e. split; [|eapply find_elem_of; eauto].
  apply list_elem_of_bind. exists v. split; [exact Hds|eapply find_elem_of; eauto].
Qed.

(** ** [getLockVersionIfValid] on a project marked for upgrade *)

(** C1. Scenario 7 on the source: A is marked for upgrade, the lock holds A
    at 1, the source manager reports that A exists upstream and lists 3, 2, 1.
    [getLockVersionIfValid] returns the locked atom, not the placeholder, and
    the solve selects A at 1, not A at 3.  When the same project does not
    exist upstream, [getLockVersionIfValid] returns the placeholder although
    the lock holds a version that the constraints admit. *)
Theorem upgrade_of_upstream_project_keeps_lock :
  ("A" ∈ latest upgrade_start ∧
   RepoExists (sm upgrade_start) "A" = (true, None) ∧
   rlm upgrade_start !! "A" = Some (mkLocked "A" 1) ∧
   getLockVersionIfValid draw "A" upgrade_start = mkAtom "A" 1 ∧
   getLockVersionIfValid draw "A" upgrade_start ≠ nilpa draw ∧
   ∃ s, Solve draw 10 upgrade_root ["A"] (NewSolver (manager upgrade_table)) =
        Done (mkResult [mkAtom "R" 1; mkAtom "A" 1] None, s)) ∧
  ("A" ∈ latest vendor_start ∧
   RepoExists (sm vendor_start) "A" = (false, None) ∧
   rlm vendor_start !! "A" = Some (mkLocked "A" 1) ∧
   Matches (getConstraint "A" (sel vendor_start)) 1 = true ∧
   getLockVersionIfValid draw "A" vendor_start = nilpa draw).
Proof.
  split.
  - split; [apply (bool_decide_unpack _); vm_compute; exact I|].
    split; [vm_compute; reflexivity|]. split; [vm_compute; reflexivity|].
    split; [vm_compute; reflexivity|].
    split; [intros E; vm_compute in E; discriminate|].
    apply Solve_result. vm_compute. reflexivity.
  - split; [apply (bool_decide_unpack _); vm_compute; exact I|].
    repeat split; vm_compute; reflexivity.
Qed.

(** ** Witnesses and counterexamples *)

Lemma fail_marks_oldest_queue_witness :
  ∃ s', fail "B" marked_stack = Done s' ∧
        queues s' !! 1 =
          Some (vq_set_failed true (mkQueue "B" [2; 1] [] false false true)) ∧
        (∀ a', a' ≠ 1 → queues s' !! a' = queues marked_stack !! a') ∧
        s' = set_queues (queues s') marked_stack.
Proof.
  apply (proj2 (proj2 (fail_marks_oldest_queue marked_stack "B")) [0] 1 [2]).
  - discriminate.
  - reflexivity.
  - intros a' Ha. apply list_elem_of_singleton in Ha as ->.
    eexists. split; [reflexivity|discriminate].
  - reflexivity.
  - reflexivity.
Defined.

(** With a source manager that fails to return the declared dependencies,
    [satisfiable] fails although both phases have nothing to object to, and
    its failure is none of the three listed. *)
Lemma satisfiable_passes_fetch_error_on :
  emptyProjectAtom ≠ mkAtom "A" 5 ∧
  Matches (getConstraint "A" (sel retry_start)) 5 = true ∧
  satisfiable (mkAtom "A" 5) retry_start =
    Done (Some (sourceError "no such project atom"), retry_start) ∧
  ¬ satisfiable_as_stated (mkAtom "A" 5) retry_start.
Proof.
  assert (Hok : stack_ok retry_start)
    by (apply (bool_decide_unpack _); vm_compute; exact I).
  assert (Hne : emptyProjectAtom ≠ mkAtom "A" 5) by discriminate.
  assert (Hm : Matches (getConstraint "A" (sel retry_start)) 5 = true)
    by (vm_compute; reflexivity).
  assert (Hd : getDependenciesOf retry_start (mkAtom "A" 5) =
               ([], Some (sourceError "no such project atom")))
    by (vm_compute; reflexivity).
  pose proof (proj1 (proj2 (satisfiable_checks_in_order _ _ Hok Hne)) Hm _ _ Hd) as E.
  split; [exact Hne|]. split; [exact Hm|]. split; [exact E|].
  intros [_ Hl]. exact (Hl _ _ E).
Qed.

Lemma satisfiable_checks_in_order_witness :
  stack_ok (after 1 retry_start) ∧
  emptyProjectAtom ≠ mkAtom "B" 1 ∧
  Matches (getConstraint "B" (sel (after 1 retry_start))) 1 = false ∧
  ∃ s', satisfiable (mkAtom "B" 1) (after 1 retry_start) =
          Done (Some (versionNotAllowedFailure (mkAtom "B" 1)
                        [mkDependency (mkAtom "A" 2) (dep "B" (atLeast 9))]
                        (both anyRange (atLeast 9))), s') ∧
        fail_all ["A"] (after 1 retry_start) = Done s'.
Proof.
  assert (Hok : stack_ok (after 1 retry_start))
    by (apply (bool_decide_unpack _); vm_compute; exact I).
  assert (Hne : emptyProjectAtom ≠ mkAtom "B" 1) by discriminate.
  assert (Hm : Matches (getConstraint "B" (sel (after 1 retry_start))) 1 = false)
    by (vm_compute; reflexivity).
  assert (Hc : getConstraint "B" (sel (after 1 retry_start)) = both anyRange (atLeast 9))
    by (vm_compute; reflexivity).
  assert (Hf : List.filter (rejects 1) (getDependenciesOn "B" (sel (after 1 retry_start))) =
               [mkDependency (mkAtom "A" 2) (dep "B" (atLeast 9))])
    by (vm_compute; reflexivity).
  split; [exact Hok|]. split; [exact Hne|]. split; [exact Hm|].
  pose proof (proj1 (satisfiable_checks_in_order (mkAtom "B" 1) (after 1 retry_start)
                       Hok Hne) Hm) as Hw.
  cbv zeta in Hw. cbn [paName paVersion] in Hw. rewrite Hf, Hc in Hw. exact Hw.
Defined.

Lemma versions_track_selection_witness :
  versions (NewSolver (manager retry_table)) = [] ∧
  Solve_prepare retry_root [] (NewSolver (manager retry_table)) = Done retry_start ∧
  between_steps draw retry_start (after 2 retry_start) ∧
  length (versions (after 2 retry_start)) + 1 =
    length (projects (sel (after 2 retry_start))).
Proof.
  assert (H1 : versions (NewSolver (manager retry_table)) = []) by reflexivity.
  assert (H2 : Solve_prepare retry_root [] (NewSolver (manager retry_table)) =
               Done retry_start) by (apply done_get; vm_compute; reflexivity).
  assert (H3 : between_steps draw retry_start (after 2 retry_start))
    by (left; apply runs_loop_head; vm_compute; reflexivity).
  split; [exact H1|]. split; [exact H2|]. split; [exact H3|].
  exact (proj1 (versions_track_selection draw _ _ _ _ _ H1 H2 H3)).
Defined.

(** The pair [selectVersion], [unselectLast] on A, which is on the frontier
    and depends on Z, leaves the frontier in another order and a key Z with
    no edges in [deps]; on Q, which is not on the frontier, it leaves Q on
    the frontier. *)
Lemma select_unselect_not_exact :
  (∃ s2, select_unselect (mkAtom "A" 1) wide_start = Done s2 ∧
         unsel wide_start = ["A"; "C"; "B"; "E"] ∧
         unsel s2 = ["A"; "C"; "E"; "B"] ∧
         deps (sel wide_start) !! "Z" = None ∧
         deps (sel s2) !! "Z" = Some []) ∧
  (∃ s2, select_unselect (mkAtom "Q" 1) wide_start = Done s2 ∧
         ("Q" ∉ unsel wide_start) ∧ ("Q" ∈ unsel s2)) ∧
  ¬ restores_exactly (mkAtom "A" 1) wide_start ∧
  ¬ restores_exactly (mkAtom "Q" 1) wide_start.
Proof.
  assert (EA : select_unselect (mkAtom "A" 1) wide_start =
               Done (get (select_unselect (mkAtom "A" 1) wide_start)))
    by (apply done_get; vm_compute; reflexivity).
  assert (EQ : select_unselect (mkAtom "Q" 1) wide_start =
               Done (get (select_unselect (mkAtom "Q" 1) wide_start)))
    by (apply done_get; vm_compute; reflexivity).
  split; [|split; [|split]].
  - eexists. split; [exact EA|]. repeat split; vm_compute; reflexivity.
  - eexists. split; [exact EQ|]. split; apply (bool_decide_unpack _); vm_compute; exact I.
  - intros (s2 & E & _ & Hu & _). rewrite EA in E. apply Done_inj in E. subst s2.
    vm_compute in Hu. discriminate.
  - intros (s2 & E & _ & Hu & _). rewrite EQ in E. apply Done_inj in E. subst s2.
    vm_compute in Hu. discriminate.
Qed.

Lemma select_unselect_restores_witness :
  getDependenciesOf wide_start (mkAtom "A" 1) = ([dep "Z" anyRange], None) ∧
  "A" ∈ unsel wide_start ∧
  ∃ s1 s2, selectVersion (mkAtom "A" 1) wide_start = Done s1 ∧
           unselectLast s1 = Done s2 ∧
           projects (sel s2) = projects (sel wide_start) ∧
           (∀ n, getDependenciesOn n (sel s2) = getDependenciesOn n (sel wide_start)) ∧
           unsel s2 ≡ₚ unsel wide_start ∧
           core_only wide_start s2.
Proof.
  assert (H1 : getDependenciesOf wide_start (mkAtom "A" 1) = ([dep "Z" anyRange], None))
    by (vm_compute; reflexivity).
  assert (H2 : "A" ∈ unsel wide_start)
    by (apply (bool_decide_unpack _); vm_compute; exact I).
  split; [exact H1|]. split; [exact H2|].
  exact (select_unselect_restores (mkAtom "A" 1) wide_start _ H1 H2).
Defined.

(** After the backtrack of the solve of [retry_table], B is a key of [deps]
    that is neither committed nor on the frontier; and after the seeding of
    a root that depends on itself, the root is on the frontier. *)
Lemma frontier_not_keys_of_deps :
  (Solve_prepare retry_root [] (NewSolver (manager retry_table)) = Done retry_start ∧
   between_steps draw retry_start (after 2 retry_start) ∧
   deps (sel (after 2 retry_start)) !! "B" = Some [] ∧
   "B" ∉ map paName (projects (sel (after 2 retry_start))) ∧
   "B" ∉ unsel (after 2 retry_start) ∧
   ¬ frontier_as_stated (after 2 retry_start)) ∧
  (Solve_prepare (rootInfo [dep "R" anyRange] None) [] (NewSolver (manager loop_table)) =
     Done loop_start ∧
   "R" ∈ unsel loop_start ∧
   "R" ∈ map paName (projects (sel loop_start)) ∧
   ¬ frontier_as_stated loop_start).
Proof.
  split.
  - assert (Hk : deps (sel (after 2 retry_start)) !! "B" = Some [])
      by (vm_compute; reflexivity).
    assert (Hp : "B" ∉ map paName (projects (sel (after 2 retry_start))))
      by (apply (bool_decide_unpack _); vm_compute; exact I).
    assert (Hu : "B" ∉ unsel (after 2 retry_start))
      by (apply (bool_decide_unpack _); vm_compute; exact I).
    split; [apply done_get; vm_compute; reflexivity|]. split.
    { left. apply runs_loop_head. vm_compute. reflexivity. }
    split; [exact Hk|]. split; [exact Hp|]. split; [exact Hu|].
    intros Hf. apply Hu, Hf. split; [|exact Hp]. rewrite Hk. eauto.
  - assert (Hu : "R" ∈ unsel loop_start)
      by (apply (bool_decide_unpack _); vm_compute; exact I).
    assert (Hp : "R" ∈ map paName (projects (sel loop_start)))
      by (apply (bool_decide_unpack _); vm_compute; exact I).
    split; [apply done_get; vm_compute; reflexivity|].
    split; [exact Hu|]. split; [exact Hp|].
    intros Hf. apply Hf in Hu as [_ Hn]. now apply Hn.
Qed.

Lemma retry_no_root_deps : no_root_deps retry_start.
Proof.
  assert (H2 : Solve_prepare retry_root [] (NewSolver (manager retry_table)) =
               Done retry_start) by (apply done_get; vm_compute; reflexivity).
  destruct (Solve_prepare_fields _ _ _ _ H2) as (Em & Er & _).
  intros atom d Hd. rewrite Er. apply (manager_declared retry_table) in Hd; [|exact Em].
  vm_compute in Hd. change (pdName d ≠ "R").
  repeat (apply elem_of_cons in Hd as [->|Hd]); try discriminate.
  inversion Hd.
Qed.

Lemma frontier_holds_uncommitted_targets_witness :
  versions (NewSolver (manager retry_table)) = [] ∧
  Solve_prepare retry_root [] (NewSolver (manager retry_table)) = Done retry_start ∧
  no_root_deps retry_start ∧
  between_steps draw retry_start (after 2 retry_start) ∧
  (∀ n, n ∈ unsel (after 2 retry_start) ↔
        getDependenciesOn n (sel (after 2 retry_start)) ≠ [] ∧
        n ∉ map paName (projects (sel (after 2 retry_start)))) ∧
  NoDup (unsel (after 2 retry_start)).
Proof.
  assert (H1 : versions (NewSolver (manager retry_table)) = []) by reflexivity.
  assert (H2 : Solve_prepare retry_root [] (NewSolver (manager retry_table)) =
               Done retry_start) by (apply done_get; vm_compute; reflexivity).
  assert (H3 : between_steps draw retry_start (after 2 retry_start))
    by (left; apply runs_loop_head; vm_compute; reflexivity).
  split; [exact H1|]. split; [exact H2|]. split; [exact retry_no_root_deps|].
  split; [exact H3|].
  exact (frontier_holds_uncommitted_targets draw _ _ _ _ _ H1 H2 retry_no_root_deps H3).
Defined.

Lemma findValidVersion_reports_walk_witness :
  stack_ok retry_walk ∧
  queues retry_walk !! 1 = Some retry_queue ∧
  nilVersion ≠ current retry_queue ∧
  findValidVersion_loop (walk_bound (sm retry_walk) retry_queue) 1 retry_walk =
    Done (false, retry_walked) ∧
  getDependenciesOn "B" (sel retry_walk) =
    [mkDependency (mkAtom "A" 2) (dep "B" (atLeast 9))] ∧
  ∃ s2 q2 appended,
    fail "A" retry_walked = Done s2 ∧
    findValidVersion 1 retry_walk = Done (Some (noVersionError "B" appended), s2) ∧
    queues s2 !! 1 = Some q2 ∧
    fails q2 = app (fails retry_queue) appended.
Proof.
  assert (H1 : stack_ok retry_walk) by (apply (bool_decide_unpack _); vm_compute; exact I).
  assert (H2 : queues retry_walk !! 1 = Some retry_queue) by (vm_compute; reflexivity).
  assert (H3 : nilVersion ≠ current retry_queue) by discriminate.
  assert (H4 : findValidVersion_loop (walk_bound (sm retry_walk) retry_queue) 1 retry_walk =
               Done (false, retry_walked)).
  { unfold retry_walked.
    assert (Hb : match findValidVersion_loop (walk_bound (sm retry_walk) retry_queue)
                         1 retry_walk with
                 | Done (b, _) => negb b
                 | _ => false
                 end = true) by (vm_compute; reflexivity).
    destruct (findValidVersion_loop (walk_bound (sm retry_walk) retry_queue) 1 retry_walk)
      as [[[|] s]| |]; try discriminate. reflexivity. }
  assert (H5 : getDependenciesOn (ref retry_queue) (sel retry_walk) =
               [mkDependency (mkAtom "A" 2) (dep "B" (atLeast 9))])
    by (vm_compute; reflexivity).
  split; [exact H1|]. split; [exact H2|]. split; [exact H3|]. split; [exact H4|].
  split; [exact H5|].
  exact (findValidVersion_reports_walk 1 retry_walk retry_walked retry_queue _ _
           H1 H2 H3 H4 H5).
Defined.

Lemma Solve_deterministic_witness :
  same_answers (manager upgrade_table) upgrade_mirror ∧
  (∀ lp, lp ∈ default [] (Lock upgrade_root) → lpName lp ≠ "") ∧
  Solve draw 10 upgrade_root ["A"] (NewSolver (manager upgrade_table)) =
  Solve 100 10 upgrade_root ["A"] (NewSolver upgrade_mirror).
Proof.
  assert (H1 : same_answers (manager upgrade_table) upgrade_mirror)
    by (repeat split).
  assert (H2 : ∀ lp, lp ∈ default [] (Lock upgrade_root) → lpName lp ≠ "").
  { intros lp Hlp. apply list_elem_of_singleton in Hlp as ->. discriminate. }
  split; [exact H1|]. split; [exact H2|].
  exact (Solve_deterministic draw _ _ 100 10 upgrade_root ["A"] H1 (or_intror H2)).
Defined.

(** A second [Solve] on the solver a first one has used starts with the
    frame that the first one left on the stack of version queues, beside a
    selection that holds the root only. *)
Lemma second_Solve_starts_on_old_stack :
  ∃ r s1 s2,
    Solve draw 10 retry_root [] (NewSolver (manager retry_table)) = Done (r, s1) ∧
    Solve_prepare retry_root [] s1 = Done s2 ∧
    versions s2 = [0] ∧ attempts s2 = 1%Z ∧
    projects (sel s2) = [mkAtom "R" 1].
Proof.
  pose (d := (mkResult [] None, NewSolver (manager []))).
  pose (o := Solve draw 10 retry_root [] (NewSolver (manager retry_table))).
  assert (E1 : o = Done ((value d o).1, (value d o).2)).
  { rewrite <- surjective_pairing. apply done_value. vm_compute. reflexivity. }
  exists (value d o).1, (value d o).2, (get (Solve_prepare retry_root [] (value d o).2)).
  split; [exact E1|].
  split; [apply done_get; vm_compute; reflexivity|].
  repeat split; vm_compute; reflexivity.
Qed.

End Examples.
